From Stdlib Require Import ZArith Lia List String Ascii Bool.
From stdpp Require Import base gmap.
Import ListNotations.
Local Open Scope string_scope.
Local Open Scope list_scope.
Local Open Scope Z_scope.

(** * JavaScript numbers: IEEE-754 binary64

    Every finite double is an integer multiple of 2^-1074, so a finite number
    is kept as that integer ([Finite k] denotes k * 2^-1074).  The two zeros
    are identified: the program never divides by a variable, and no other
    operation it uses tells them apart. *)

Definition ONE : Z := 2 ^ 1074.   (* the integer that denotes 1.0 *)

Inductive number : Type :=
| Finite (k : Z)
| NaN
| PosInf
| NegInf.

(** Nearest integer to n/d (0 < d), ties to even. *)
Definition rne_div (n d : Z) : Z :=
  let q := n / d in
  match 2 * (n mod d) ?= d with
  | Lt => q
  | Gt => q + 1
  | Eq => if Z.even q then q else q + 1
  end.

(** Number of low bits dropped to keep 53 significant bits of n/d. *)
Definition shift (n d : Z) : Z := Z.max 0 (Z.log2 (Z.abs n / d) - 52).

(** n/d (in units of 2^-1074) rounded to 53 significant bits. *)
Definition round_units (n d : Z) : Z :=
  let e := shift n d in rne_div n (d * 2 ^ e) * 2 ^ e.

(** Rounding with overflow to the infinities (largest double < 2^1024). *)
Definition fl (n d : Z) : number :=
  let r := round_units n d in
  if Z.abs r <? 2 ^ 2098 then Finite r
  else if r <? 0 then NegInf else PosInf.

(** The double of an integer literal. *)
Definition num (z : Z) : number := fl (z * ONE) 1.

Definition signed_inf (negative : bool) : number :=
  if negative then NegInf else PosInf.

Definition fneg (x : number) : number :=
  match x with
  | Finite k => Finite (- k)
  | NaN => NaN
  | PosInf => NegInf
  | NegInf => PosInf
  end.

Definition fadd (x y : number) : number :=
  match x, y with
  | NaN, _ | _, NaN => NaN
  | PosInf, NegInf | NegInf, PosInf => NaN
  | PosInf, _ | _, PosInf => PosInf
  | NegInf, _ | _, NegInf => NegInf
  | Finite a, Finite b => fl (a + b) 1
  end.

Definition fsub (x y : number) : number := fadd x (fneg y).

Definition fmul (x y : number) : number :=
  match x, y with
  | NaN, _ | _, NaN => NaN
  | Finite a, Finite b => fl (a * b) ONE
  | Finite a, PosInf | PosInf, Finite a =>
      if a =? 0 then NaN else signed_inf (a <? 0)
  | Finite a, NegInf | NegInf, Finite a =>
      if a =? 0 then NaN else signed_inf (0 <? a)
  | PosInf, PosInf | NegInf, NegInf => PosInf
  | PosInf, NegInf | NegInf, PosInf => NegInf
  end.

(** Division; the program divides by the non-zero constants 2, 127 and
    m - 1 only, a zero divisor is taken as +0. *)
Definition fdiv (x y : number) : number :=
  match x, y with
  | NaN, _ | _, NaN => NaN
  | Finite a, Finite b =>
      if b =? 0 then (if a =? 0 then NaN else signed_inf (a <? 0))
      else fl (Z.sgn b * a * ONE) (Z.abs b)
  | Finite _, _ => Finite 0
  | PosInf, Finite b => signed_inf (b <? 0)
  | NegInf, Finite b => signed_inf (0 <=? b)
  | _, _ => NaN
  end.

(** The [%] operator: exact, with the sign of the dividend. *)
Definition frem (x y : number) : number :=
  match x, y with
  | Finite a, Finite b => if b =? 0 then NaN else Finite (Z.rem a b)
  | Finite a, (PosInf | NegInf) => Finite a
  | _, _ => NaN
  end.

(** [Math.floor]. *)
Definition ffloor (x : number) : number :=
  match x with
  | Finite k => Finite (k / ONE * ONE)
  | _ => x
  end.

(** [<=], [<] and [===] on numbers; every comparison with NaN is false. *)
Definition fle (x y : number) : bool :=
  match x, y with
  | NaN, _ | _, NaN => false
  | NegInf, _ | _, PosInf => true
  | Finite a, Finite b => a <=? b
  | _, _ => false
  end.

Definition flt (x y : number) : bool :=
  match x, y with
  | NaN, _ | _, NaN => false
  | PosInf, _ | _, NegInf => false
  | Finite a, Finite b => a <? b
  | _, _ => true
  end.


(** ToBoolean on a number: 0 and NaN are falsy. *)
Definition truthy (x : number) : bool :=
  match x with
  | Finite k => negb (k =? 0)
  | NaN => false
  | _ => true
  end.

Declare Scope js_scope.
Delimit Scope js_scope with js.
Bind Scope js_scope with number.
Notation "x + y" := (fadd x y) : js_scope.
Notation "x - y" := (fsub x y) : js_scope.
Notation "x * y" := (fmul x y) : js_scope.
Notation "x / y" := (fdiv x y) : js_scope.
Notation "x 'mod' y" := (frem x y) : js_scope.
Notation "x <= y" := (fle x y) : js_scope.
Notation "x >= y" := (fle y x) : js_scope.
Notation "# z" := (num z) (at level 1, format "# z") : js_scope.

(** [a[i]] on an array literal: an element when [i] is an integer within
    range, [undefined] otherwise (negative, fractional, NaN, infinite). *)
Definition array_get {A : Type} (a : list A) (i : number) : option A :=
  match i with
  | Finite k =>
      if (k mod ONE =? 0) && (0 <=? k) then nth_error a (Z.to_nat (k / ONE))
      else None
  | _ => None
  end.

(** * Utility functions *)

Module RNG.
(* LCG using GCC's constants *)
Definition m : number := #2147483648.   (* 0x80000000, 2**31 *)
Definition a : number := #1103515245.
Definition c : number := #12345.

Definition hash (seed : number) : number := ((a * seed + c) mod m)%js.

Definition scale (hash : number) : number := ((#2 * hash) / (m - #1) - #1)%js.
End RNG.

Definition cxValues : list Z := [20; 40; 60; 80].

Definition getCx (seed : number) : option Z :=
  let hashValue := RNG.hash seed in
  let scaledValue := RNG.scale hashValue in
  let index := ffloor ((scaledValue + #1) / #2 * #4)%js in
  array_get cxValues index.
(** * Strings (code units below 256) *)

(** WhiteSpace and LineTerminator code units: TAB, LF, VT, FF, CR, SP, NBSP. *)
Definition is_white_space (ch : ascii) : bool :=
  let n := N_of_ascii ch in
  existsb (N.eqb n) [9; 10; 11; 12; 13; 32; 160]%N.

Fixpoint trim_start (s : list ascii) : list ascii :=
  match s with
  | ch :: rest => if is_white_space ch then trim_start rest else s
  | [] => []
  end.

(** [String.prototype.trim]. *)
Definition trim (s : string) : string :=
  string_of_list_ascii
    (rev (trim_start (rev (trim_start (list_ascii_of_string s))))).

(** [String.prototype.split] with a one-character separator: at least one
    piece, one more than the separators in [s]. *)
Fixpoint split (sep : ascii) (s : string) : list string :=
  match s with
  | EmptyString => [EmptyString]
  | String ch rest =>
      if Ascii.eqb ch sep then EmptyString :: split sep rest
      else match split sep rest with
           | piece :: pieces => String ch piece :: pieces
           | [] => [String ch EmptyString]
           end
  end.

Definition LF : ascii := ascii_of_nat 10.
Definition comma : ascii := ","%char.

(** ** [Number(x)] on a string or [undefined]

    StringToNumber of ECMA-262: surrounding white space is skipped, the empty
    string is 0, then a signed decimal literal (with fraction and exponent),
    [Infinity], or an unsigned binary, octal or hexadecimal integer; anything
    else is NaN.  The value is rounded to the nearest double. *)

Definition digit_value (base : Z) (ch : ascii) : option Z :=
  let n := Z.of_N (N_of_ascii ch) in
  let v := if (48 <=? n) && (n <=? 57) then n - 48
           else if (97 <=? n) && (n <=? 102) then n - 87
           else if (65 <=? n) && (n <=? 70) then n - 55
           else base in
  if v <? base then Some v else None.

(** Longest prefix of digits: its value on top of [acc], its length, the rest. *)
Fixpoint digits (base : Z) (s : list ascii) (acc : Z) : Z * nat * list ascii :=
  match s with
  | ch :: rest =>
      match digit_value base ch with
      | Some v =>
          let '(value, len, tail) := digits base rest (acc * base + v) in
          (value, S len, tail)
      | None => (acc, O, s)
      end
  | [] => (acc, O, [])
  end.

(** mantissa * 10^exponent, rounded. *)
Definition decimal (mantissa exponent : Z) : number :=
  if 0 <=? exponent then fl (mantissa * 10 ^ exponent * ONE) 1
  else fl (mantissa * ONE) (10 ^ (- exponent)).

Definition signed (negative : bool) (z : Z) : Z := if negative then - z else z.

Definition take_sign (s : list ascii) : bool * list ascii :=
  match s with
  | "-"%char :: rest => (true, rest)
  | "+"%char :: rest => (false, rest)
  | _ => (false, s)
  end.

Definition is_exponent_indicator (ch : ascii) : bool :=
  Ascii.eqb ch "e" || Ascii.eqb ch "E".

(** StrUnsignedDecimalLiteral other than [Infinity]. *)
Definition unsigned_decimal (negative : bool) (s : list ascii) : number :=
  let '(int_part, int_len, after_int) := digits 10 s 0 in
  let '(mantissa, frac_len, after_frac) :=
    match after_int with
    | "."%char :: rest => digits 10 rest int_part
    | _ => (int_part, O, after_int)
    end in
  if (int_len + frac_len =? 0)%nat then NaN
  else
    match after_frac with
    | [] => decimal (signed negative mantissa) (- Z.of_nat frac_len)
    | ch :: rest =>
        if is_exponent_indicator ch then
          let '(exp_negative, exp_digits) := take_sign rest in
          match digits 10 exp_digits 0 with
          | (_, O, _) => NaN
          | (e, _, []) =>
              decimal (signed negative mantissa)
                      (signed exp_negative e - Z.of_nat frac_len)
          | _ => NaN
          end
        else NaN
    end.

Definition radix_integer (base : Z) (s : list ascii) : number :=
  match digits base s 0 with
  | (_, O, _) => NaN
  | (v, _, []) => fl (v * ONE) 1
  | _ => NaN
  end.

Definition StringToNumber (str : string) : number :=
  let s := list_ascii_of_string (trim str) in
  match s with
  | [] => Finite 0
  | "0"%char :: ("x" | "X")%char :: rest => radix_integer 16 rest
  | "0"%char :: ("o" | "O")%char :: rest => radix_integer 8 rest
  | "0"%char :: ("b" | "B")%char :: rest => radix_integer 2 rest
  | _ =>
      let '(negative, body) := take_sign s in
      if String.eqb (string_of_list_ascii body) "Infinity"
      then signed_inf negative
      else unsigned_decimal negative body
  end.

(** [Number(x)] where [x] is a string or [undefined] ([None]). *)
Definition Number (x : option string) : number :=
  match x with
  | Some str => StringToNumber str
  | None => NaN
  end.

(** * Notes and the track *)

Record Note : Type := mkNote {
  id : Z;
  user_played : bool;
  instrument : string;
  velocity : number;
  pitch : number;
  startTime : number;
  endTime : number;
}.

(** The result of a call that may throw. *)
Inductive Completion (A : Type) : Type :=
| Normal (a : A)
| Throw (error : string).
Arguments Normal {A} a.
Arguments Throw {A} error.

Definition TypeError : string := "TypeError".

(** One data row; [index] is its position among the non-empty rows.
    [instrument_name.trim()] throws when the row has a single field. *)
Definition parseRow (index : nat) (line : string) : Completion Note :=
  let fields := split comma line in
  let user_played := nth 0 fields "" in   (* split yields at least one piece *)
  let instrument_name := nth_error fields 1 in
  let velocity := nth_error fields 2 in
  let pitch := nth_error fields 3 in
  let start := nth_error fields 4 in
  let end_ := nth_error fields 5 in
  match instrument_name with
  | None => Throw TypeError
  | Some instrument_name =>
      Normal {| id := Z.of_nat index;
                user_played := String.eqb (trim user_played) "True";
                instrument := trim instrument_name;
                velocity := (Number velocity / #127)%js;
                pitch := Number pitch;
                startTime := Number start;
                endTime := Number end_ |}
  end.

(** [Array.prototype.map] with the element's index, for a callback that may
    throw: the first exception aborts the whole map. *)
Fixpoint mapi_throw {A B : Type} (f : nat -> A -> Completion B)
    (index : nat) (l : list A) : Completion (list B) :=
  match l with
  | [] => Normal []
  | x :: rest =>
      match f index x with
      | Throw e => Throw e
      | Normal y =>
          match mapi_throw f (S index) rest with
          | Throw e => Throw e
          | Normal ys => Normal (y :: ys)
          end
      end
  end.

Definition loadCSV (csvContents : string) : Completion (list Note) :=
  let lines := tl (split LF csvContents) in
  mapi_throw parseRow 0
    (List.filter (fun line => (0 <? String.length line)%nat) lines).

(** * Constants *)

Module Viewport.
Definition CANVAS_WIDTH : Z := 200.
Definition CANVAS_HEIGHT : Z := 400.
End Viewport.

Module Constants.
Definition TICK_RATE_MS : Z := 500.
End Constants.

(** * User input *)

Inductive Key : Type := KeyH | KeyJ | KeyK | KeyL.

(** The four filters on [event.code] merged into [keys$]. *)
Definition keyOfCode (code : string) : option Key :=
  if String.eqb code "KeyH" then Some KeyH
  else if String.eqb code "KeyJ" then Some KeyJ
  else if String.eqb code "KeyK" then Some KeyK
  else if String.eqb code "KeyL" then Some KeyL
  else None.

(** * State processing *)

Record State : Type := mkState {
  gameEnd : bool;
  score : number;
  highscore : number;
  multiplier : number;
  currentTime : number;
  notes : list Note;
}.

Definition initialState : State :=
  {| gameEnd := false;
     score := #0;
     highscore := #0;
     multiplier := #0;
     currentTime := #0;
     notes := [] |}.

Definition tick (s : State) : State := s.

(** The reducer given to [scan] in [source$]: [(s) => ({...initialState})]. *)
Definition reducer (s : State) : State :=
  {| gameEnd := gameEnd initialState;
     score := score initialState;
     highscore := highscore initialState;
     multiplier := multiplier initialState;
     currentTime := currentTime initialState;
     notes := notes initialState |}.

(** * The mutable world of [main] *)

(** A circle made by [createCircleNote], with the [move$] subscription that
    [moveCircle] starts for it.  Positions are the integers 0, 2, ..., 402,
    on which double arithmetic and the round trip through the "cy"
    attribute ([String], [parseFloat]) are exact. *)
Record Circle : Type := mkCircle {
  circle_note : Note;   (* the note captured by the subscriber *)
  cy : Z;               (* the "cy" attribute *)
  attached : bool;      (* still a child of the canvas *)
  accum_Y : Z;          (* accumulator of [scan] *)
  completed : bool;     (* [takeWhile] has completed [move$] *)
}.

(** [activeNotes]: the four keys are present from the start. *)
Record Lanes : Type := mkLanes {
  laneH : list Note;
  laneJ : list Note;
  laneK : list Note;
  laneL : list Note;
}.

Definition lane (key : Key) (l : Lanes) : list Note :=
  match key with
  | KeyH => laneH l
  | KeyJ => laneJ l
  | KeyK => laneK l
  | KeyL => laneL l
  end.

Definition push (key : Key) (note : Note) (l : Lanes) : Lanes :=
  match key with
  | KeyH => mkLanes (laneH l ++ [note]) (laneJ l) (laneK l) (laneL l)
  | KeyJ => mkLanes (laneH l) (laneJ l ++ [note]) (laneK l) (laneL l)
  | KeyK => mkLanes (laneH l) (laneJ l) (laneK l ++ [note]) (laneL l)
  | KeyL => mkLanes (laneH l) (laneJ l) (laneK l) (laneL l ++ [note])
  end.

(** Which call site asked the sampler to play. *)
Inductive Cause : Type :=
| Auto                (* [note$] subscriber, a note the user does not play *)
| Hit (key : Key)     (* [handleKeyPress] *)
| Miss.               (* [moveCircle], the bottom of the canvas *)

(** One call of [triggerAttackRelease]. *)
Record Playback : Type := mkPlayback {
  cause : Cause;
  played : Note;
  duration : number;
}.

Record World : Type := mkWorld {
  circles : list Circle;             (* every circle created, by creation order *)
  userPlayedNotesMap : gmap Z nat;   (* note id (its decimal string) to circle *)
  activeNotes : Lanes;
  state : State;                     (* accumulator of [scan] in [source$] *)
  gameover : option bool;            (* visibility last set on #gameOver *)
  audio : list Playback;             (* oldest first *)
}.

Definition initialWorld : World :=
  {| circles := [];
     userPlayedNotesMap := ∅;
     activeNotes := mkLanes [] [] [] [];
     state := initialState;
     gameover := None;
     audio := [] |}.

Definition with_circles (f : list Circle -> list Circle) (w : World) : World :=
  mkWorld (f (circles w)) (userPlayedNotesMap w) (activeNotes w) (state w)
          (gameover w) (audio w).

Definition with_map (f : gmap Z nat -> gmap Z nat) (w : World) : World :=
  mkWorld (circles w) (f (userPlayedNotesMap w)) (activeNotes w) (state w)
          (gameover w) (audio w).

Definition with_lanes (f : Lanes -> Lanes) (w : World) : World :=
  mkWorld (circles w) (userPlayedNotesMap w) (f (activeNotes w)) (state w)
          (gameover w) (audio w).

Definition with_audio (f : list Playback -> list Playback) (w : World) : World :=
  mkWorld (circles w) (userPlayedNotesMap w) (activeNotes w) (state w)
          (gameover w) (f (audio w)).

(** [circle.remove()]. *)
Definition detach (c : Circle) : Circle :=
  mkCircle (circle_note c) (cy c) false (accum_Y c) (completed c).

(** ** Callbacks: state passing, with exceptions *)

Definition Handler (A : Type) : Type := World -> Completion A * World.

Definition ret {A : Type} (a : A) : Handler A := fun w => (Normal a, w).

Definition bind {A B : Type} (h : Handler A) (k : A -> Handler B) : Handler B :=
  fun w =>
    match h w with
    | (Normal a, w') => k a w'
    | (Throw e, w') => (Throw e, w')
    end.

Definition modify (f : World -> World) : Handler unit :=
  fun w => (Normal tt, f w).

Declare Scope handler_scope.
Delimit Scope handler_scope with handler.
Notation "h1 ;; h2" := (bind h1 (fun _ => h2))
  (at level 100, h2 at level 200, right associativity) : handler_scope.
Local Open Scope handler_scope.

(** [Array.prototype.forEach]: an exception leaves the loop. *)
Fixpoint forEach {A : Type} (f : A -> Handler unit) (l : list A) : Handler unit :=
  match l with
  | [] => ret tt
  | x :: rest => f x ;; forEach f rest
  end.

Section Game.

(** The names of the instruments in [samples]. *)
Variable samples : list string.

Definition loaded (name : string) : bool := existsb (String.eqb name) samples.

(** [duration || note.endTime - note.startTime]. *)
Definition durationOr (duration : option number) (note : Note) : number :=
  match duration with
  | Some d => if truthy d then d else (endTime note - startTime note)%js
  | None => (endTime note - startTime note)%js
  end.

(** [samples[note.instrument]] is [undefined] for a name that is not
    loaded, and the method call on it throws a TypeError. *)
Definition playSound (cause : Cause) (note : Note) (duration : option number)
  : Handler unit :=
  fun w =>
    if loaded (instrument note)
    then (Normal tt,
          with_audio (fun a => a ++ [mkPlayback cause note (durationOr duration note)]) w)
    else (Throw TypeError, w).

Definition addNoteToKey (key : Key) (note : Note) : Handler unit :=
  modify (with_lanes (push key note)).

(** ['KeyH', 'KeyJ', 'KeyK', 'KeyL'] with their indices. *)
Definition keyIndex : list (Key * Z) :=
  [(KeyH, 0); (KeyJ, 1); (KeyK, 2); (KeyL, 3)].

(** [moveCircle] only subscribes; the new circle carries the subscription. *)
Definition createCircleNote (note : Note) : Handler unit :=
  let cxValue := getCx #(id note) in      (* [String] of it; None is "undefined" *)
  fun w =>
    let circle := length (circles w) in
    (modify (with_circles (fun cs => cs ++ [mkCircle note 0 true 0 false])) ;;
     modify (with_map <[id note := circle]>) ;;
     forEach (fun '(key, index) =>
                if decide (cxValue = Some (20 + index * 20))
                then addNoteToKey key note
                else ret tt)
             keyIndex) w.

Definition setCircle (c : nat) (ci : Circle) : Handler unit :=
  modify (with_circles <[c := ci]>).

(** The fallback duration of a missed note. *)
Definition fallbackDuration (note : Note) : number :=
  RNG.scale (RNG.hash (endTime note)).

(** One emission of [interval(10)] into the [move$] of circle [c]:
    [scan] adds 2, [takeWhile] lets values up to CANVAS_HEIGHT through and
    completes on the first one above, the subscriber moves the circle and
    at the bottom removes it and plays the note. *)
Definition moveTick (c : nat) : Handler unit :=
  fun w =>
    match circles w !! c with
    | None => (Normal tt, w)
    | Some ci =>
        if completed ci then (Normal tt, w)
        else
          let updatedY := accum_Y ci + 2 in
          if updatedY <=? Viewport.CANVAS_HEIGHT then
            let moved := mkCircle (circle_note ci) updatedY (attached ci) updatedY false in
            (setCircle c moved ;;
             if updatedY >=? Viewport.CANVAS_HEIGHT then
               setCircle c (detach moved) ;;
               playSound Miss (circle_note ci) (Some (fallbackDuration (circle_note ci)))
             else ret tt) w
          else
            setCircle c (mkCircle (circle_note ci) (cy ci) (attached ci) updatedY true) w
    end.

Definition isNoteInTargetZone (circleY : Z) : bool :=
  let targetZone := 360 in
  (circleY >=? targetZone - 10) && (circleY <=? targetZone + 10).

Definition handleKeyPress (key : Key) (note : Note) : Handler unit :=
  fun w =>
    match userPlayedNotesMap w !! id note with
    | None => (Normal tt, w)
    | Some c =>
        match circles w !! c with
        | None => (Normal tt, w)
        | Some circle =>
            let y := cy circle in
            if isNoteInTargetZone y then
              (playSound (Hit key) note None ;;
               modify (with_circles (alter detach c)) ;;
               modify (with_map (delete (id note)))) w
            else (Normal tt, w)
        end
    end.

(** The subscriber of [keys$]. *)
Definition keyDown (code : string) : Handler unit :=
  match keyOfCode code with
  | None => ret tt
  | Some key => fun w => forEach (handleKeyPress key) (lane key (activeNotes w)) w
  end.

(** The subscriber of [note$]. *)
Definition noteEmit (note : Note) : Handler unit :=
  if user_played note then createCircleNote note
  else playSound Auto note None.

(** One emission of [tick$] through [scan] into the subscriber of
    [source$]: [render] does nothing, the game-over banner follows
    [s.gameEnd]. *)
Definition gameTick : Handler unit :=
  fun w =>
    let s := reducer (state w) in
    (Normal tt,
     mkWorld (circles w) (userPlayedNotesMap w) (activeNotes w) s
             (Some (gameEnd s)) (audio w)).

(** What the host's timers and the keyboard deliver. *)
Inductive Event : Type :=
| NoteEmit (note : Note)    (* the delay of [note] in [note$] has elapsed *)
| MoveTick (c : nat)        (* [interval(10)] of circle [c] *)
| KeyDown (code : string)   (* a keydown on the document *)
| GameTick.                 (* [tick$] *)

Definition step (e : Event) : Handler unit :=
  match e with
  | NoteEmit note => noteEmit note
  | MoveTick c => moveTick c
  | KeyDown code => keyDown code
  | GameTick => gameTick
  end.

(** A session: an exception in a subscriber is reported by the stream
    library outside the callback, and the next event is delivered. *)
Fixpoint run (trace : list Event) (w : World) : World :=
  match trace with
  | [] => w
  | e :: rest => run rest (snd (step e w))
  end.

End Game.

(** ** The schedule of [note$] *)

(** The argument of [delay], in milliseconds after [main] is called. *)
Definition delayOf (note : Note) : number :=
  if user_played note then (startTime note * #1000 - #3500)%js
  else (startTime note * #1000)%js.

(** [main]: the notes with their delays, and the world the first event
    finds.  An exception of [loadCSV] leaves [main]. *)
Definition main (csvContents : string) : Completion (list (Note * number) * World) :=
  match loadCSV csvContents with
  | Throw e => Throw e
  | Normal notes => Normal (map (fun note => (note, delayOf note)) notes, initialWorld)
  end.

(** ** What a session shows *)


(** The key whose lane [createCircleNote] appends the note to: the one
    whose "20", "40", "60" or "80" equals the string of [getCx(note.id)]. *)
Definition laneOf (note : Note) : option Key :=
  match getCx #(id note) with
  | Some cx =>
      if cx =? 20 then Some KeyH
      else if cx =? 40 then Some KeyJ
      else if cx =? 60 then Some KeyK
      else if cx =? 80 then Some KeyL
      else None
  | None => None
  end.

(** Resolutions of notes the user plays, oldest first. *)
Inductive Outcome : Type :=
| HitOutcome (key : Key) (note_id : Z)
| MissOutcome (key : option Key) (note_id : Z).

Definition outcomeOf (p : Playback) : option Outcome :=
  match cause p with
  | Hit key => Some (HitOutcome key (id (played p)))
  | Miss => Some (MissOutcome (laneOf (played p)) (id (played p)))
  | Auto => None
  end.

Definition outcomes (w : World) : list Outcome := omap outcomeOf (audio w).


(** The live position of a note that is still in [userPlayedNotesMap]. *)
Definition position (w : World) (note : Note) : option Z :=
  match userPlayedNotesMap w !! id note with
  | Some c => cy <$> circles w !! c
  | None => None
  end.

(** Whether a key press finds the note within the target zone. *)
Definition inZone (w : World) (note : Note) : bool :=
  match position w note with
  | Some y => isNoteInTargetZone y
  | None => false
  end.

(** The playback of a hit: the note's own duration. *)
Definition hitPlayback (key : Key) (note : Note) : Playback :=
  mkPlayback (Hit key) note (endTime note - startTime note)%js.

(** ** The nominal timeline

    [delay(d)] emits when the timer it sets fires, and [interval(10)] emits
    its k-th value 10 k milliseconds after [moveCircle] subscribes. *)

(** Milliseconds after which the timer of [delay(d)] fires: d itself from 0
    to 2^31 - 1, and 0, that is at once, otherwise: [timer] of RxJS sets a
    negative delay to 0, and the timers of the host hold neither NaN nor a
    delay above 2^31 - 1. *)
Definition timerDelay (d : number) : number :=
  if fle #0 d && fle d #2147483647 then d else #0%js.

(** The value [scan] emits on the k-th emission of [interval(10)]. *)
Definition positionAfter (k : nat) : Z := Nat.iter k (fun accum_Y => accum_Y + 2) 0.

(** Milliseconds after [main] at which the circle of a note receives the
    k-th position. *)
Definition emissionTime (note : Note) (k : nat) : number :=
  (timerDelay (delayOf note) + #(10 * Z.of_nat k))%js.

(** The middle of the target zone of [isNoteInTargetZone]. *)
Definition targetZone : Z := 360.

(** Joining lines with line feeds, the inverse of [split LF]. *)
Fixpoint unlines (lines : list string) : string :=
  match lines with
  | [] => ""
  | [line] => line
  | line :: rest => line ++ String LF (unlines rest)
  end.

Fixpoint contains (ch : ascii) (s : string) : bool :=
  match s with
  | EmptyString => false
  | String c rest => Ascii.eqb c ch || contains ch rest
  end.

(** The integer functions behind [RNG.hash], [RNG.scale] and the index of
    [getCx], used to reason about them. *)
Definition hashZ (s : Z) : Z :=
  Z.rem (round_units (round_units (1103515245 * s) 1 + 12345) 1) 2147483648.

Definition scaleU (x : Z) : Z :=
  round_units (round_units (round_units (2 * x) 1) 2147483647 - ONE) 1.

Definition indexU (v : Z) : Z :=
  round_units (round_units (round_units (v + ONE) 1) 2 * 4) 1.

(** An integer-valued number, the "integer seed" of the lane assignment. *)
Definition integer (x : number) : Prop := exists z : Z, x = Finite (z * ONE).


(** The same three functions with 1.0 denoted by [one] instead of [ONE]:
    in the normal range a computation on numbers that are multiples of
    2^k can be done on the quotients, with [ONE = one * 2^k]. *)
Definition hashAt (one x : Z) : Z :=
  Z.rem (round_units (round_units (1103515245 * x) 1 + 12345 * one) 1)
        (2147483648 * one).

Definition scaleAt (one x : Z) : Z :=
  round_units (round_units (round_units (2 * x) 1) 2147483647 - one) 1.

Definition indexAt (one v : Z) : Z :=
  round_units (round_units (round_units (v + one) 1) 2 * 4) 1.

(** The scale used for these computations: 1.0 is 2^200, [ONE] is
    [SMALL * 2^874]. *)
Definition SMALL : Z := 2 ^ 200.

(** No quotient of the computation of [scaleAt one x] is subnormal. *)
Definition scale_normal (x : Z) : bool :=
  (x =? 0) || (2 ^ 52 * 2147483647 <=? Z.abs (round_units (2 * x) 1)).

(** No quotient of the computation of [indexAt one v] is subnormal. *)
Definition index_normal (one v : Z) : bool :=
  let y := round_units (v + one) 1 in (y =? 0) || (2 ^ 53 <=? Z.abs y).

(** The index of [getCx] for the hash [h], computed at the small scale. *)
Definition laneIndex (h : Z) : Z :=
  indexAt SMALL (scaleAt SMALL (h * SMALL)) / SMALL.

(** ** Sample data *)

Definition header : string := "user_played,instrument_name,velocity,pitch,start,end".

(** A note for the user, as [loadCSV] builds it from
    [True,<instrument>,100,60,<start>,<end>]. *)
Definition userNote (id : Z) (instrument : string) (start end_ : number) : Note :=
  {| id := id; user_played := true; instrument := instrument;
     velocity := (#100 / #127)%js; pitch := #60;
     startTime := start; endTime := end_ |}.

(** The note of Scenario A and B: one piano note from 5 s to 5.5 s. *)
Definition note5 : Note := userNote 0 "piano" #5 (#11 / #2)%js.

(** Its circle has received [k] positions. *)
Definition fallen (samples : list string) (note : Note) (k : nat) : World :=
  run samples (NoteEmit note :: repeat (MoveTick 0) k) initialWorld.

(** Two notes of lane H (ids 0 and 2) whose circles are both at the middle
    of the target zone. *)
Definition twoInZone (samples : list string) (first second : Note) : World :=
  run samples
      (NoteEmit first :: NoteEmit second ::
       repeat (MoveTick 0) 180 ++ repeat (MoveTick 1) 180)
      initialWorld.

Definition kazoo0 : Note := userNote 0 "kazoo" #5 (#11 / #2)%js.
Definition piano0 : Note := userNote 0 "piano" #5 (#11 / #2)%js.
Definition piano2 : Note := userNote 2 "piano" #5 (#11 / #2)%js.

(** A note whose id no row of a track can have. *)
Definition noteMinus1 : Note := userNote (-1) "piano" #5 (#11 / #2)%js.

(** ** Predicates on callbacks and worlds *)

(** A callback that leaves the scoring state and the banner alone. *)
Definition keepsState {A : Type} (h : Handler A) : Prop :=
  forall w, state (snd (h w)) = state w /\ gameover (snd (h w)) = gameover w.

(** The world after [handleKeyPress] has resolved [note] on circle [c]. *)
Definition resolved (key : Key) (note : Note) (c : nat) (w : World) : World :=
  with_map (delete (id note))
    (with_circles (alter detach c)
       (with_audio (fun a => a ++ [hitPlayback key note]) w)).

(** Every note in a lane was assigned that lane from its id, and every hit
    was played for a note of the lane of the key. *)
Definition assigned (w : World) : Prop :=
  (forall key n, In n (lane key (activeNotes w)) -> laneOf n = Some key) /\
  (forall p key, In p (audio w) -> cause p = Hit key -> laneOf (played p) = Some key).

(** The key at an index of ['KeyH', 'KeyJ', 'KeyK', 'KeyL']. *)
Definition keyOfIndex (i : Z) : option Key :=
  match i with
  | 0 => Some KeyH
  | 1 => Some KeyJ
  | 2 => Some KeyK
  | 3 => Some KeyL
  | _ => None
  end.

(** The world in which the only circle is the one of [note], at [y]. *)
Definition oneCircle (note : Note) (y : Z) (attached : bool) : World :=
  {| circles := [mkCircle note y attached y false];
     userPlayedNotesMap := {[ id note := 0%nat ]};
     activeNotes := match laneOf note with
                    | Some key => push key note (activeNotes initialWorld)
                    | None => activeNotes initialWorld
                    end;
     state := initialState;
     gameover := None;
     audio := [] |}.

(** ** Sessions: what was emitted, how a circle advances *)

(** The notes for which the subscriber of [note$] creates a circle, in the
    order of their emission. *)
Fixpoint emitted (trace : list Event) : list Note :=
  match trace with
  | NoteEmit note :: rest =>
      if user_played note then note :: emitted rest else emitted rest
  | _ :: rest => emitted rest
  | [] => []
  end.

(** The number of emissions of [interval(10)] for circle [c]. *)
Fixpoint ticksOf (c : nat) (trace : list Event) : nat :=
  match trace with
  | MoveTick c' :: rest => if Nat.eqb c' c then S (ticksOf c rest) else ticksOf c rest
  | _ :: rest => ticksOf c rest
  | [] => O
  end.

Definition Key_eqb (a b : Key) : bool :=
  match a, b with
  | KeyH, KeyH | KeyJ, KeyJ | KeyK, KeyK | KeyL, KeyL => true
  | _, _ => false
  end.

Definition inLane (key : Key) (note : Note) : bool :=
  match laneOf note with
  | Some k => Key_eqb k key
  | None => false
  end.

(** A circle as [createCircleNote] makes it. *)
Definition newCircle (note : Note) : Circle := mkCircle note 0 true 0 false.

(** What one emission of [interval(10)] does to a circle: a move, the move
    to the bottom with the removal, or the completion of [move$]. *)
Definition advance (ci : Circle) : Circle :=
  let updatedY := accum_Y ci + 2 in
  if completed ci then ci
  else if updatedY <? Viewport.CANVAS_HEIGHT then
    mkCircle (circle_note ci) updatedY (attached ci) updatedY false
  else if updatedY =? Viewport.CANVAS_HEIGHT then
    mkCircle (circle_note ci) updatedY false updatedY false
  else mkCircle (circle_note ci) (cy ci) (attached ci) updatedY true.

(** The emission that takes the circle to the bottom. *)
Definition atBottom (ci : Circle) : bool :=
  negb (completed ci) && (accum_Y ci + 2 =? Viewport.CANVAS_HEIGHT).

(** The playback of a missed note. *)
Definition missPlayback (note : Note) : Playback :=
  mkPlayback Miss note (durationOr (Some (fallbackDuration note)) note).

(** What holds of every circle of a session. *)
Definition circleOk (ci : Circle) : Prop :=
  0 <= cy ci <= Viewport.CANVAS_HEIGHT /\ Z.even (cy ci) = true /\
  (cy ci = Viewport.CANVAS_HEIGHT -> attached ci = false) /\
  (if completed ci
   then cy ci = Viewport.CANVAS_HEIGHT /\ accum_Y ci = Viewport.CANVAS_HEIGHT + 2
   else accum_Y ci = cy ci).

(** The hits of the note with id [i] in a sound log. *)
Definition isHitOf (i : Z) (p : Playback) : bool :=
  match cause p with
  | Hit _ => id (played p) =? i
  | _ => false
  end.

Definition hitsOf (i : Z) (log : list Playback) : nat :=
  length (List.filter (isHitOf i) log).

(** Joining fields with a separator, the inverse of [split]. *)
Fixpoint join (sep : ascii) (fields : list string) : string :=
  match fields with
  | [] => ""
  | [field] => field
  | field :: rest => field ++ String sep (join sep rest)
  end.

(** Every entry of [userPlayedNotesMap] is the circle of the note with
    that id. *)
Definition mapValid (w : World) : Prop :=
  forall i c, userPlayedNotesMap w !! i = Some c ->
    exists ci, circles w !! c = Some ci /\ id (circle_note ci) = i.

(** What a session keeps of the hits, while the notes with an id in
    [pending] are still to be emitted: no such note has an entry or a hit,
    no note with an entry has a hit, and no note has two hits. *)
Definition hitsOnce (pending : list Z) (w : World) : Prop :=
  (forall i, In i pending ->
     userPlayedNotesMap w !! i = None /\ hitsOf i (audio w) = 0%nat) /\
  (forall i c, userPlayedNotesMap w !! i = Some c -> hitsOf i (audio w) = 0%nat) /\
  (forall i, (hitsOf i (audio w) <= 1)%nat).

(** Circle [c] of [w'] has the note and the place in [move$] it has in [w]. *)
Definition sameFall (c : nat) (ci : Circle) (w' : World) : Prop :=
  exists ci', circles w' !! c = Some ci' /\ accum_Y ci' = accum_Y ci /\
              completed ci' = completed ci /\ circle_note ci' = circle_note ci.

(** The notes of the emissions of [note$], in order. *)
Fixpoint scheduled (trace : list Event) : list Note :=
  match trace with
  | NoteEmit note :: rest => note :: scheduled rest
  | _ :: rest => scheduled rest
  | [] => []
  end.

Definition isAuto (p : Playback) : bool :=
  match cause p with
  | Auto => true
  | _ => false
  end.

(** The playback of a note from a call site: the fallback duration, if it
    is neither 0 nor NaN, for a miss and the duration of the note itself
    otherwise. *)
Definition playbackFor (cause : Cause) (note : Note) : Playback :=
  mkPlayback cause note
    match cause with
    | Miss => durationOr (Some (fallbackDuration note)) note
    | _ => (endTime note - startTime note)%js
    end.

(** ** The game clock *)



(** The world with the accumulator of [source$] and the banner replaced. *)
Definition setClock (s : State) (g : option bool) (w : World) : World :=
  mkWorld (circles w) (userPlayedNotesMap w) (activeNotes w) s g (audio w).



(** * Rounding to 53 significant bits *)

Lemma rne_div_cases n d :
  0 < d ->
  exists q r, n = d * q + r /\ 0 <= r < d /\
    ((2 * r < d /\ rne_div n d = q) \/
     (2 * r > d /\ rne_div n d = q + 1) \/
     (2 * r = d /\ rne_div n d = if Z.even q then q else q + 1)).
Proof.
  intros Hd. exists (n / d), (n mod d).
  split; [apply Z.div_mod; lia|].
  split; [apply Z.mod_pos_bound; lia|].
  unfold rne_div. destruct (Z.compare_spec (2 * (n mod d)) d); auto.
  right; left; split; auto; lia.
Qed.

Lemma rne_div_exact q d : 0 < d -> rne_div (q * d) d = q.
Proof.
  intros Hd. unfold rne_div.
  rewrite Z.div_mul, Z.mod_mul by lia.
  destruct (Z.compare_spec (2 * 0) d); lia.
Qed.

Lemma rne_div_mono n1 n2 d : 0 < d -> n1 <= n2 -> rne_div n1 d <= rne_div n2 d.
Proof.
  intros Hd Hle.
  destruct (rne_div_cases n1 d Hd) as (q1 & r1 & E1 & B1 & C1).
  destruct (rne_div_cases n2 d Hd) as (q2 & r2 & E2 & B2 & C2).
  assert (Hq : q1 <= q2) by nia.
  assert (Hqr : q1 < q2 \/ (q1 = q2 /\ r1 <= r2)) by nia.
  destruct (Z.even q1) eqn:Ev1; destruct (Z.even q2) eqn:Ev2;
  destruct Hqr as [Hlt | [Heq Hr]]; try (subst q2; rewrite Ev1 in Ev2; try discriminate);
  intuition lia.
Qed.

Lemma rne_div_scale n d k : 0 < d -> 0 < k -> rne_div (n * k) (d * k) = rne_div n d.
Proof.
  intros Hd Hk. unfold rne_div.
  rewrite Z.div_mul_cancel_r by lia.
  rewrite Z.mul_mod_distr_r by lia.
  replace (2 * (n mod d * k)) with (2 * (n mod d) * k) by ring.
  destruct (Z.compare_spec (2 * (n mod d) * k) (d * k)),
    (Z.compare_spec (2 * (n mod d)) d); try reflexivity; nia.
Qed.

Lemma rne_div_opp n d : 0 < d -> rne_div (- n) d = - rne_div n d.
Proof.
  intros Hd.
  destruct (rne_div_cases n d Hd) as (q & r & E & B & C).
  destruct (rne_div_cases (- n) d Hd) as (q' & r' & E' & B' & C').
  assert (Hs : d * (q + q') = - (r + r')) by lia.
  assert (Hq : -2 < q + q' <= 0) by nia.
  assert (Hc : (r = 0 /\ r' = 0 /\ q' = - q) \/ (0 < r /\ r' = d - r /\ q' = - q - 1)).
  { assert (Hq' : q + q' = 0 \/ q + q' = -1) by lia.
    destruct Hq' as [Hq'|Hq']; rewrite Hq' in Hs; [left|right]; lia. }
  assert (Hev : Z.even (- q - 1) = negb (Z.even q)).
  { replace (- q - 1) with (- (q + 1)) by ring.
    rewrite Z.even_opp, Z.even_add. simpl. destruct (Z.even q); reflexivity. }
  destruct Hc as [(-> & -> & ->) | (Hr & -> & ->)].
  - rewrite Z.even_opp in C'. revert C C'.
    destruct (Z.even q); intros; intuition lia.
  - rewrite Hev in C'. revert C C'.
    destruct (Z.even q); simpl negb; cbv iota; intros C C';
      destruct C as [[? ->]|[[? ->]|[? ->]]];
      destruct C' as [[? ->]|[[? ->]|[? ->]]]; lia.
Qed.

Lemma rne_div_near n d : 0 < d -> n / d <= rne_div n d <= n / d + 1.
Proof.
  intros Hd. unfold rne_div.
  destruct (2 * (n mod d) ?= d); try destruct (Z.even (n / d)); lia.
Qed.

Lemma shift_nonneg n d : 0 <= shift n d.
Proof. unfold shift. lia. Qed.

Lemma shift_opp n d : shift (- n) d = shift n d.
Proof. unfold shift. now rewrite Z.abs_opp. Qed.

Lemma round_units_opp n d : 0 < d -> round_units (- n) d = - round_units n d.
Proof.
  intros Hd. unfold round_units. rewrite shift_opp.
  pose proof (shift_nonneg n d).
  rewrite rne_div_opp by (apply Z.mul_pos_pos; [lia | apply Z.pow_pos_nonneg; lia]).
  ring.
Qed.

Lemma round_units_0 d : 0 < d -> round_units 0 d = 0.
Proof.
  intros Hd. unfold round_units.
  pose proof (rne_div_exact 0 (d * 2 ^ shift 0 d)) as H.
  rewrite Z.mul_0_l in H. rewrite H; [ring|].
  apply Z.mul_pos_pos; [lia|]. apply Z.pow_pos_nonneg; [lia|apply shift_nonneg].
Qed.

Lemma shift_mono n1 n2 d : 0 < d -> 0 <= n1 <= n2 -> shift n1 d <= shift n2 d.
Proof.
  intros Hd H. unfold shift.
  rewrite !Z.abs_eq by lia.
  assert (n1 / d <= n2 / d) by (apply Z.div_le_mono; lia).
  pose proof (Z.log2_le_mono _ _ H0). lia.
Qed.

(* below the binade top *)
Lemma shift_upper n d : 0 < d -> 0 <= n -> n < d * 2 ^ (53 + shift n d).
Proof.
  intros Hd Hn. unfold shift. rewrite Z.abs_eq by lia.
  set (x := n / d).
  assert (Hx : 0 <= x) by (apply Z.div_pos; lia).
  assert (Hlt : x < 2 ^ (53 + Z.max 0 (Z.log2 x - 52))).
  { destruct (Z.eq_dec x 0) as [->|Hx0].
    - apply Z.pow_pos_nonneg; lia.
    - pose proof (Z.log2_spec x ltac:(lia)) as [_ Hu].
      eapply Z.lt_le_trans; [exact Hu|].
      apply Z.pow_le_mono_r; lia. }
  assert (n < d * (x + 1)).
  { unfold x. pose proof (Z.div_mod n d ltac:(lia)). pose proof (Z.mod_pos_bound n d Hd). nia. }
  nia.
Qed.

Lemma shift_lower n d : 0 < d -> 0 <= n -> 0 < shift n d -> d * 2 ^ (52 + shift n d) <= n.
Proof.
  intros Hd Hn. unfold shift. rewrite Z.abs_eq by lia.
  set (x := n / d). intros Hs.
  assert (Hx : 0 < x).
  { destruct (Z.le_gt_cases x 0); [|lia].
    assert (Z.log2 x = 0) by (apply Z.log2_nonpos; lia). lia. }
  pose proof (Z.log2_spec x Hx) as [Hl _].
  replace (52 + Z.max 0 (Z.log2 x - 52)) with (Z.log2 x) by lia.
  assert (d * x <= n).
  { unfold x. pose proof (Z.div_mod n d ltac:(lia)). pose proof (Z.mod_pos_bound n d Hd). nia. }
  nia.
Qed.

Lemma round_units_mono_nonneg n1 n2 d :
  0 < d -> 0 <= n1 <= n2 -> round_units n1 d <= round_units n2 d.
Proof.
  intros Hd H.
  pose proof (shift_mono n1 n2 d Hd H) as Hs.
  pose proof (shift_nonneg n1 d) as Hs1.
  unfold round_units.
  set (e1 := shift n1 d) in *. set (e2 := shift n2 d) in *.
  assert (Hp1 : 0 < 2 ^ e1) by (apply Z.pow_pos_nonneg; lia).
  assert (Hp2 : 0 < 2 ^ e2) by (apply Z.pow_pos_nonneg; lia).
  destruct (Z.eq_dec e1 e2) as [<-|Hne].
  - apply Z.mul_le_mono_nonneg_r; [lia|]. apply rne_div_mono; nia.
  - assert (He : e1 < e2) by lia.
    pose proof (shift_upper n1 d Hd ltac:(lia)) as Hu. fold e1 in Hu.
    pose proof (shift_lower n2 d Hd ltac:(lia) ltac:(fold e2; lia)) as Hl. fold e2 in Hl.
    assert (A : rne_div n1 (d * 2 ^ e1) <= 2 ^ 53).
    { rewrite <- (rne_div_exact (2 ^ 53) (d * 2 ^ e1)) by nia.
      apply rne_div_mono; [nia|].
      rewrite Z.pow_add_r in Hu by lia. nia. }
    assert (B : 2 ^ 52 <= rne_div n2 (d * 2 ^ e2)).
    { rewrite <- (rne_div_exact (2 ^ 52) (d * 2 ^ e2)) at 1 by nia.
      apply rne_div_mono; [nia|].
      rewrite Z.pow_add_r in Hl by lia. nia. }
    assert (C : 2 ^ 53 * 2 ^ e1 <= 2 ^ 52 * 2 ^ e2).
    { rewrite <- !Z.pow_add_r by lia. apply Z.pow_le_mono_r; lia. }
    nia.
Qed.

Lemma round_units_nonneg n d : 0 < d -> 0 <= n -> 0 <= round_units n d.
Proof.
  intros Hd Hn. rewrite <- (round_units_0 d Hd).
  apply round_units_mono_nonneg; lia.
Qed.

Lemma round_units_mono n1 n2 d :
  0 < d -> n1 <= n2 -> round_units n1 d <= round_units n2 d.
Proof.
  intros Hd H.
  destruct (Z.le_gt_cases 0 n1) as [H1|H1].
  - apply round_units_mono_nonneg; lia.
  - destruct (Z.le_gt_cases 0 n2) as [H2|H2].
    + pose proof (round_units_nonneg n2 d Hd H2).
      pose proof (round_units_nonneg (- n1) d Hd ltac:(lia)) as H3.
      rewrite round_units_opp in H3 by lia. lia.
    + pose proof (round_units_mono_nonneg (- n2) (- n1) d Hd ltac:(lia)) as H3.
      rewrite !round_units_opp in H3 by lia. lia.
Qed.
Lemma shift_scale n d k : 0 < d -> 0 < k -> shift (n * k) (d * k) = shift n d.
Proof.
  intros Hd Hk. unfold shift.
  rewrite Z.abs_mul, (Z.abs_eq k) by lia.
  now rewrite Z.div_mul_cancel_r by lia.
Qed.

Lemma round_units_scale n d k :
  0 < d -> 0 < k -> round_units (n * k) (d * k) = round_units n d.
Proof.
  intros Hd Hk. unfold round_units. rewrite shift_scale by assumption.
  pose proof (shift_nonneg n d).
  assert (0 < 2 ^ shift n d) by (apply Z.pow_pos_nonneg; lia).
  replace (d * k * 2 ^ shift n d) with (d * 2 ^ shift n d * k) by ring.
  rewrite rne_div_scale by nia. reflexivity.
Qed.

Lemma shift_small z d : 0 < d -> Z.abs z < 2 ^ 53 -> shift (z * d) d = 0.
Proof.
  intros Hd Hz. unfold shift.
  rewrite Z.abs_mul, (Z.abs_eq d), Z.div_mul by lia.
  destruct (Z.eq_dec (Z.abs z) 0) as [->|Hne]; [reflexivity|].
  assert (Z.log2 (Z.abs z) < 53) by (apply Z.log2_lt_pow2; lia).
  lia.
Qed.

Lemma round_units_small z d : 0 < d -> Z.abs z < 2 ^ 53 -> round_units (z * d) d = z.
Proof.
  intros Hd Hz. unfold round_units. rewrite shift_small by assumption.
  rewrite Z.pow_0_r, !Z.mul_1_r. now apply rne_div_exact.
Qed.

(* integer numbers of units *)
Lemma round_units_pow2 z k : 0 <= k -> round_units (z * 2 ^ k) 1 = round_units z 1 * 2 ^ k.
Proof.
  intros Hk.
  destruct (Z.eq_dec z 0) as [->|Hz].
  { rewrite Z.mul_0_l, round_units_0 by lia. reflexivity. }
  assert (Hp : 0 < 2 ^ k) by (apply Z.pow_pos_nonneg; lia).
  assert (Ha : 0 < Z.abs z) by lia.
  unfold round_units, shift.
  rewrite !Z.div_1_r, Z.abs_mul, (Z.abs_eq (2 ^ k)) by lia.
  rewrite Z.log2_mul_pow2 by lia.
  set (L := Z.log2 (Z.abs z)).
  assert (HL : 0 <= L) by apply Z.log2_nonneg.
  rewrite !Z.mul_1_l.
  destruct (Z.le_gt_cases 52 L) as [H|H].
  - replace (Z.max 0 (k + L - 52)) with ((L - 52) + k) by lia.
    replace (Z.max 0 (L - 52)) with (L - 52) by lia.
    rewrite Z.pow_add_r by lia.
    rewrite rne_div_scale by (try apply Z.pow_pos_nonneg; lia).
    ring.
  - replace (Z.max 0 (L - 52)) with 0 by lia.
    rewrite Z.pow_0_r.
    assert (Hz1 : rne_div z 1 = z).
    { pose proof (rne_div_exact z 1 ltac:(lia)) as Hx. now rewrite Z.mul_1_r in Hx. }
    rewrite Hz1.
    set (e := Z.max 0 (k + L - 52)).
    assert (He : 0 <= e <= k) by lia.
    replace (2 ^ k) with (2 ^ (k - e) * 2 ^ e) by (rewrite <- Z.pow_add_r by lia; f_equal; lia).
    rewrite Z.mul_assoc. rewrite rne_div_exact by (apply Z.pow_pos_nonneg; lia).
    ring.
Qed.

Lemma round_units_int_small z : Z.abs z < 2 ^ 53 -> round_units z 1 = z.
Proof.
  intros H. rewrite <- (Z.mul_1_r z) at 1. apply round_units_small; lia.
Qed.

Lemma round_units_int_large z :
  2 ^ 53 <= z -> 2 ^ 53 <= round_units z 1 /\ Z.even (round_units z 1) = true.
Proof.
  intros H. split.
  - assert (E : round_units (2 ^ 53) 1 = 2 ^ 53).
    { change (2 ^ 53) with (2 ^ 52 * 2 ^ 1) at 1.
      rewrite round_units_pow2, round_units_int_small by (simpl; lia). reflexivity. }
    rewrite <- E at 1. apply round_units_mono; lia.
  - unfold round_units, shift. rewrite Z.div_1_r, Z.abs_eq, Z.mul_1_l by lia.
    assert (53 <= Z.log2 z) by (apply Z.log2_le_pow2; lia).
    replace (Z.max 0 (Z.log2 z - 52)) with (Z.succ (Z.log2 z - 53)) by lia.
    rewrite Z.pow_succ_r by lia.
    rewrite Z.mul_assoc, Z.mul_shuffle0, Z.even_mul. simpl. apply Bool.orb_true_r.
Qed.

(** In the normal range rounding commutes with a scaling by a power of two. *)
Lemma shift_pow2 n d k :
  0 < d -> 0 <= k -> 2 ^ 52 * d <= Z.abs n ->
  shift (n * 2 ^ k) d = shift n d + k /\ 0 <= shift n d.
Proof.
  intros Hd Hk Hn. unfold shift.
  assert (Hp : 0 < 2 ^ k) by (apply Z.pow_pos_nonneg; lia).
  rewrite Z.abs_mul, (Z.abs_eq (2 ^ k)) by lia.
  set (a := Z.abs n) in *.
  assert (Hq : 2 ^ 52 <= a / d) by (apply Z.div_le_lower_bound; lia).
  assert (Hq0 : 0 < a / d) by (pose proof (Z.pow_pos_nonneg 2 52); lia).
  pose proof (Z.log2_spec (a / d) Hq0) as [Hl Hu].
  set (L := Z.log2 (a / d)) in *.
  assert (HL : 52 <= L) by (apply Z.log2_le_pow2; lia).
  assert (Ha1 : d * 2 ^ L <= a).
  { pose proof (Z.mul_div_le a d Hd). nia. }
  assert (Ha2 : a < d * 2 ^ Z.succ L).
  { pose proof (Z.mod_pos_bound a d Hd). pose proof (Z.div_mod a d ltac:(lia)). nia. }
  assert (E : Z.log2 (a * 2 ^ k / d) = L + k).
  { apply Z.log2_unique; [lia|]. split.
    - apply Z.div_le_lower_bound; [lia|]. rewrite Z.pow_add_r by lia. nia.
    - apply Z.div_lt_upper_bound; [lia|].
      replace (Z.succ (L + k)) with (Z.succ L + k) by lia.
      rewrite Z.pow_add_r by lia. nia. }
  rewrite E. lia.
Qed.

Lemma round_units_shift n d k :
  0 < d -> 0 <= k -> n = 0 \/ 2 ^ 52 * d <= Z.abs n ->
  round_units (n * 2 ^ k) d = round_units n d * 2 ^ k.
Proof.
  intros Hd Hk [-> | Hn].
  { rewrite Z.mul_0_l, round_units_0 by assumption. reflexivity. }
  destruct (shift_pow2 n d k Hd Hk Hn) as [E He].
  unfold round_units. rewrite E.
  assert (0 < 2 ^ shift n d) by (apply Z.pow_pos_nonneg; lia).
  assert (0 < 2 ^ k) by (apply Z.pow_pos_nonneg; lia).
  rewrite Z.pow_add_r by lia.
  replace (d * (2 ^ shift n d * 2 ^ k)) with (d * 2 ^ shift n d * 2 ^ k) by ring.
  rewrite rne_div_scale by nia. ring.
Qed.

(** The magnitude of a rounding is at most the rounding of a bound. *)
Lemma round_units_abs_le n d c :
  0 < d -> Z.abs n <= c * d -> Z.abs (round_units n d) <= round_units c 1.
Proof.
  intros Hd Hn.
  assert (Hc : round_units (c * d) d = round_units c 1).
  { rewrite <- (round_units_scale c 1 d) by lia. now rewrite Z.mul_1_l. }
  pose proof (round_units_mono n (c * d) d Hd ltac:(lia)) as H1.
  pose proof (round_units_mono (- (c * d)) n d Hd ltac:(lia)) as H2.
  rewrite round_units_opp in H2 by assumption. rewrite Hc in *. lia.
Qed.

(** * The operations on numbers *)

Lemma ONE_pos : 0 < ONE.
Proof. reflexivity. Qed.

Lemma ONE_pow : ONE = 2 ^ 1074.
Proof. reflexivity. Qed.

Lemma overflow_ONE : 2 ^ 2098 = 2 ^ 1024 * ONE.
Proof. reflexivity. Qed.

Lemma ONE_SMALL : ONE = SMALL * 2 ^ 874.
Proof. reflexivity. Qed.

Lemma SMALL_pos : 0 < SMALL.
Proof. reflexivity. Qed.

#[local] Opaque ONE SMALL.

Ltac closed := vm_compute; first [reflexivity | discriminate | intros ?; discriminate].

Lemma fl_finite n d :
  Z.abs (round_units n d) < 2 ^ 2098 -> fl n d = Finite (round_units n d).
Proof.
  intros H. unfold fl. apply Z.ltb_lt in H. now rewrite H.
Qed.

Lemma round_units_ONE z : round_units (z * ONE) 1 = round_units z 1 * ONE.
Proof. rewrite ONE_pow. apply round_units_pow2. lia. Qed.

Lemma below_overflow r : Z.abs r <= 2 ^ 100 -> Z.abs (r * ONE) < 2 ^ 2098.
Proof.
  intros H. rewrite Z.abs_mul, (Z.abs_eq ONE), overflow_ONE
    by (pose proof ONE_pos; lia).
  apply Z.mul_lt_mono_pos_r; [apply ONE_pos|].
  eapply Z.le_lt_trans; [exact H | reflexivity].
Qed.

(** A quotient of magnitude at most [c] (in units of 1.0) is rounded to a
    finite number of magnitude at most the rounding of [c]. *)
Lemma fl_bounded n d c :
  0 < d -> Z.abs n <= c * ONE * d -> round_units c 1 <= 2 ^ 100 ->
  fl n d = Finite (round_units n d) /\
  Z.abs (round_units n d) <= round_units c 1 * ONE.
Proof.
  intros Hd Hn Hc.
  pose proof (round_units_abs_le n d (c * ONE) Hd Hn) as H.
  rewrite round_units_ONE in H. split; [|exact H].
  apply fl_finite. pose proof ONE_pos as HO.
  eapply Z.le_lt_trans; [exact H|].
  assert (H0 : 0 <= round_units c 1 * ONE) by lia.
  rewrite <- (Z.abs_eq _ H0). apply below_overflow.
  rewrite Z.abs_eq; [exact Hc | nia].
Qed.

Lemma fl_small n d c :
  0 < d -> 0 <= c < 2 ^ 53 -> Z.abs n <= c * ONE * d ->
  fl n d = Finite (round_units n d) /\ Z.abs (round_units n d) <= c * ONE.
Proof.
  intros Hd Hc Hn.
  assert (E : round_units c 1 = c) by (apply round_units_int_small; lia).
  destruct (fl_bounded n d c Hd Hn) as [H1 H2].
  - rewrite E. eapply Z.le_trans; [apply Z.lt_le_incl, Hc | closed].
  - rewrite E in H2. auto.
Qed.

(** An integer literal below 2^53 is exact. *)
Lemma num_small z : Z.abs z < 2 ^ 53 -> #z%js = Finite (z * ONE).
Proof.
  intros H. unfold num.
  assert (E : round_units (z * ONE) 1 = z * ONE)
    by now rewrite round_units_ONE, round_units_int_small.
  rewrite fl_finite; rewrite E; [reflexivity|].
  apply below_overflow. eapply Z.le_trans; [apply Z.lt_le_incl, H | closed].
Qed.

Lemma fl_int z :
  fl (z * ONE) 1 =
  if Z.abs (round_units z 1) <? 2 ^ 1024 then Finite (round_units z 1 * ONE)
  else if round_units z 1 <? 0 then NegInf else PosInf.
Proof.
  unfold fl. rewrite round_units_ONE, overflow_ONE.
  generalize (round_units z 1) as r. generalize (2 ^ 1024) as B. intros B r.
  pose proof ONE_pos as HO.
  assert (E1 : (Z.abs (r * ONE) <? B * ONE) = (Z.abs r <? B)).
  { rewrite Z.abs_mul, (Z.abs_eq ONE) by lia.
    destruct (Z.ltb_spec (Z.abs r) B).
    - apply Z.ltb_lt. now apply Z.mul_lt_mono_pos_r.
    - apply Z.ltb_ge. now apply Z.mul_le_mono_nonneg_r; [lia|]. }
  assert (E2 : (r * ONE <? 0) = (r <? 0)).
  { destruct (Z.ltb_spec r 0).
    - apply Z.ltb_lt. nia.
    - apply Z.ltb_ge. nia. }
  now rewrite E1, E2.
Qed.

Lemma fl_int_small z :
  Z.abs z <= 2 ^ 100 -> fl (z * ONE) 1 = Finite (round_units z 1 * ONE).
Proof.
  intros Hz. unfold fl. rewrite round_units_ONE.
  assert (H : Z.abs (round_units z 1 * ONE) < 2 ^ 2098).
  { apply below_overflow.
    eapply Z.le_trans; [apply (round_units_abs_le z 1 (2 ^ 100)); lia | closed]. }
  apply Z.ltb_lt in H. now rewrite H.
Qed.

Lemma fl_scale n d k : 0 < d -> 0 < k -> fl (n * k) (d * k) = fl n d.
Proof. intros Hd Hk. unfold fl. now rewrite round_units_scale. Qed.

Lemma fmul_int x y : (Finite (x * ONE) * Finite (y * ONE))%js = fl (x * y * ONE) 1.
Proof.
  unfold fmul.
  replace (x * ONE * (y * ONE)) with (x * y * ONE * ONE) by ring.
  rewrite <- (fl_scale (x * y * ONE) 1 ONE) by (pose proof ONE_pos; lia).
  now rewrite Z.mul_1_l.
Qed.

Lemma fadd_int x y : (Finite (x * ONE) + Finite (y * ONE))%js = fl ((x + y) * ONE) 1.
Proof. unfold fadd. f_equal. ring. Qed.

Lemma fsub_ints x y : (Finite (x * ONE) - Finite (y * ONE))%js = fl ((x - y) * ONE) 1.
Proof. unfold fsub, fneg, fadd. f_equal. ring. Qed.

Lemma frem_int x y :
  y <> 0 -> (Finite (x * ONE) mod Finite (y * ONE))%js = Finite (Z.rem x y * ONE).
Proof.
  intros Hy. unfold frem. pose proof ONE_pos.
  destruct (Z.eqb_spec (y * ONE) 0); [nia|].
  now rewrite Z.mul_rem_distr_r by lia.
Qed.

Lemma fmul_num z x : Z.abs z < 2 ^ 53 -> (#z * Finite x)%js = fl (z * x) 1.
Proof.
  intros Hz. rewrite num_small by assumption. unfold fmul.
  replace (z * ONE * x) with (z * x * ONE) by ring.
  rewrite <- (fl_scale (z * x) 1 ONE) by (pose proof ONE_pos; lia).
  now rewrite Z.mul_1_l.
Qed.

Lemma fmul_num_r z x : Z.abs z < 2 ^ 53 -> (Finite x * #z)%js = fl (x * z) 1.
Proof.
  intros Hz. rewrite num_small by assumption. unfold fmul.
  rewrite Z.mul_assoc.
  rewrite <- (fl_scale (x * z) 1 ONE) by (pose proof ONE_pos; lia).
  now rewrite Z.mul_1_l.
Qed.

Lemma fdiv_int x z : 0 < z -> (Finite x / Finite (z * ONE))%js = fl x z.
Proof.
  intros Hz. pose proof ONE_pos as HO. unfold fdiv.
  destruct (Z.eqb_spec (z * ONE) 0); [nia|].
  rewrite Z.abs_eq, Z.sgn_pos by nia.
  rewrite Z.mul_1_l. now apply fl_scale.
Qed.

Lemma fsub_int x z : (Finite x - Finite (z * ONE))%js = fl (x - z * ONE) 1.
Proof. reflexivity. Qed.

Lemma fadd_num x z : (Finite x + Finite (z * ONE))%js = fl (x + z * ONE) 1.
Proof. reflexivity. Qed.

(** * The generator *)

Lemma RNG_constants :
  RNG.a = Finite (1103515245 * ONE) /\ RNG.c = Finite (12345 * ONE) /\
  RNG.m = Finite (2147483648 * ONE).
Proof.
  unfold RNG.a, RNG.c, RNG.m. rewrite !num_small by reflexivity. auto.
Qed.

Lemma hash_integer s :
  RNG.hash (Finite (s * ONE)) = NaN \/
  RNG.hash (Finite (s * ONE)) = Finite (hashZ s * ONE).
Proof.
  destruct RNG_constants as (Ea & Ec & Em).
  unfold RNG.hash. rewrite Ea, Ec, Em, fmul_int, fl_int.
  destruct (Z.abs (round_units (1103515245 * s) 1) <? 2 ^ 1024).
  - rewrite fadd_int, fl_int.
    destruct (Z.abs _ <? 2 ^ 1024).
    + right. rewrite frem_int by lia. reflexivity.
    + left. destruct (_ <? 0); reflexivity.
  - left. destruct (_ <? 0); reflexivity.
Qed.

Lemma round_units_int_neg z : z <= 0 -> round_units z 1 <= 0.
Proof.
  intros H. rewrite <- (round_units_0 1) by lia. apply round_units_mono; lia.
Qed.

Lemma round_units_int_large_neg z :
  z <= - 2 ^ 53 -> round_units z 1 <= - 2 ^ 53.
Proof.
  intros H. destruct (round_units_int_large (- z)) as [H1 _]; [lia|].
  rewrite round_units_opp in H1; lia.
Qed.

Lemma rem_even x : Z.even x = true -> Z.even (Z.rem x 2147483648) = true.
Proof.
  intros H. pose proof (Z.quot_rem' x 2147483648) as E.
  assert (Er : Z.rem x 2147483648 = x - 2 * (1073741824 * (x ÷ 2147483648))) by lia.
  rewrite Er, Z.even_sub, Z.even_mul, H. reflexivity.
Qed.

(** No integer seed hashes to m - 1: below 2^53 the arithmetic is exact and
    the only solutions are 230538014 modulo 2^31, beyond it every double is
    an even integer. *)
Lemma hashZ_not_max s : hashZ s <> 2147483647.
Proof.
  unfold hashZ. intros H.
  set (p := 1103515245 * s) in *.
  assert (Hodd : forall x, Z.even x = true -> Z.rem x 2147483648 <> 2147483647).
  { intros x Hx Hr. apply rem_even in Hx. rewrite Hr in Hx. discriminate. }
  destruct (Z.le_gt_cases (2 ^ 53) p) as [Hp|Hp].
  { destruct (round_units_int_large p Hp) as [H1 _].
    destruct (round_units_int_large (round_units p 1 + 12345)) as [_ H2]; [lia|].
    now apply Hodd in H2. }
  destruct (Z.le_gt_cases p (- 2 ^ 53)) as [Hn|Hn].
  { pose proof (round_units_int_large_neg p Hn) as H1.
    pose proof (round_units_int_neg (round_units p 1 + 12345) ltac:(lia)) as H2.
    pose proof (Z.rem_nonpos (round_units (round_units p 1 + 12345) 1) 2147483648 ltac:(lia) H2).
    lia. }
  rewrite (round_units_int_small p) in H by lia.
  destruct (Z.le_gt_cases (2 ^ 53) (p + 12345)) as [Ht|Ht].
  { destruct (round_units_int_large (p + 12345) Ht) as [_ H2]. now apply Hodd in H2. }
  rewrite (round_units_int_small (p + 12345)) in H by lia.
  pose proof (Z.quot_rem' (p + 12345) 2147483648) as E. rewrite H in E.
  destruct (Z.le_gt_cases 0 (p + 12345)) as [Hs|Hs].
  - assert (0 <= (p + 12345) ÷ 2147483648) by (apply Z.quot_pos; lia).
    unfold p in *. lia.
  - pose proof (Z.rem_nonpos (p + 12345) 2147483648 ltac:(lia) ltac:(lia)). lia.
Qed.

Lemma hashZ_range s : - 2147483648 < hashZ s < 2147483648.
Proof.
  unfold hashZ. set (x := round_units _ 1).
  pose proof (Z.rem_bound_abs x 2147483648 ltac:(lia)).
  pose proof (Z.rem_bound_pos x 2147483648).
  pose proof (Z.rem_bound_neg_pos x 2147483648). lia.
Qed.

(** Below 2^53 in magnitude the hash of an integer seed is finite. *)
Lemma hash_integer_finite s :
  Z.abs s < 2 ^ 53 -> RNG.hash (Finite (s * ONE)) = Finite (hashZ s * ONE).
Proof.
  intros Hs.
  destruct RNG_constants as (Ea & Ec & Em).
  unfold RNG.hash, hashZ. rewrite Ea, Ec, Em, fmul_int.
  rewrite fl_int_small
    by (rewrite Z.abs_mul; eapply Z.le_trans;
        [apply (Z.mul_le_mono_nonneg 1103515245 (2 ^ 31) (Z.abs s) (2 ^ 53)); lia | closed]).
  rewrite fadd_int.
  assert (Hp : Z.abs (round_units (1103515245 * s) 1) <= 2 ^ 84).
  { eapply Z.le_trans; [apply (round_units_abs_le _ 1 (2 ^ 84)); [lia|] | closed].
    rewrite Z.abs_mul. nia. }
  rewrite fl_int_small
    by (eapply Z.le_trans; [apply Z.abs_triangle|];
        eapply Z.le_trans; [apply Z.add_le_mono_r, Hp | closed]).
  rewrite frem_int by lia. reflexivity.
Qed.

Lemma hash_integer_small s :
  0 <= s < 2 ^ 53 ->
  RNG.hash (Finite (s * ONE)) = Finite (hashZ s * ONE) /\
  0 <= hashZ s <= 2147483646.
Proof.
  intros Hs. split; [apply hash_integer_finite; lia|].
  pose proof (hashZ_not_max s). pose proof (hashZ_range s).
  assert (0 <= hashZ s).
  { apply Z.rem_nonneg; [lia|].
    apply round_units_nonneg; [lia|].
    pose proof (round_units_nonneg (1103515245 * s) 1). lia. }
  lia.
Qed.

Lemma hash_nonneg e :
  0 <= e <= 2 ^ 53 * ONE ->
  exists x, RNG.hash (Finite e) = Finite x /\ 0 <= x < 2147483648 * ONE.
Proof.
  intros He. pose proof ONE_pos as HO.
  destruct RNG_constants as (_ & Ec & Em).
  unfold RNG.hash, RNG.a. rewrite Ec, Em, fmul_num by reflexivity.
  destruct (fl_bounded (1103515245 * e) 1 (2 ^ 84)) as (-> & B1); [lia | nia | closed |].
  assert (P0 : 0 <= round_units (1103515245 * e) 1) by (apply round_units_nonneg; lia).
  set (p := round_units (1103515245 * e) 1) in *.
  replace (round_units (2 ^ 84) 1) with (2 ^ 84) in B1 by closed.
  rewrite fadd_num.
  destruct (fl_bounded (p + 12345 * ONE) 1 (2 ^ 85)) as (-> & B2); [lia | lia | closed |].
  assert (T0 : 0 <= round_units (p + 12345 * ONE) 1) by (apply round_units_nonneg; lia).
  set (t := round_units (p + 12345 * ONE) 1) in *.
  exists (Z.rem t (2147483648 * ONE)). split.
  - unfold frem. destruct (Z.eqb_spec (2147483648 * ONE) 0); [lia | reflexivity].
  - apply Z.rem_bound_pos; lia.
Qed.

Lemma m_minus_1 : (RNG.m - #1)%js = Finite (2147483647 * ONE).
Proof.
  destruct RNG_constants as (_ & _ & ->). rewrite num_small by reflexivity.
  rewrite fsub_ints, fl_int_small by closed.
  rewrite round_units_int_small by reflexivity. reflexivity.
Qed.

Lemma scaleU_mono x y : x <= y -> scaleU x <= scaleU y.
Proof.
  intros H. unfold scaleU.
  apply round_units_mono; [lia|]. apply Z.sub_le_mono_r.
  apply round_units_mono; [lia|]. apply round_units_mono; lia.
Qed.

Lemma scale_finite x :
  - (2147483648 * ONE) <= x <= 2147483648 * ONE ->
  RNG.scale (Finite x) = Finite (scaleU x) /\ Z.abs (scaleU x) <= 4 * ONE.
Proof.
  intros Hx. unfold RNG.scale, scaleU.
  rewrite m_minus_1, fmul_num by reflexivity.
  destruct (fl_small (2 * x) 1 4294967296) as (-> & B1); [lia | lia | lia |].
  rewrite fdiv_int by lia.
  set (y := round_units (2 * x) 1) in *.
  destruct (fl_small y 2147483647 3) as (-> & B2); [lia | lia | lia |].
  rewrite (num_small 1), fsub_int by reflexivity.
  set (z := round_units y 2147483647) in *.
  rewrite Z.mul_1_l.
  destruct (fl_small (z - ONE) 1 4) as (-> & B3); [lia | lia | lia |].
  auto.
Qed.

Lemma scale_NaN : RNG.scale NaN = NaN.
Proof.
  unfold RNG.scale. rewrite m_minus_1, !num_small by reflexivity. reflexivity.
Qed.

Lemma indexU_mono x y : x <= y -> indexU x <= indexU y.
Proof.
  intros H. unfold indexU.
  apply round_units_mono; [lia|]. apply Z.mul_le_mono_nonneg_r; [lia|].
  apply round_units_mono; [lia|]. apply round_units_mono; lia.
Qed.

Lemma index_finite v :
  Z.abs v <= 4 * ONE ->
  ((Finite v + #1) / #2 * #4)%js = Finite (indexU v).
Proof.
  intros Hv. unfold indexU.
  rewrite (num_small 1), (num_small 2) by reflexivity.
  rewrite fadd_num, Z.mul_1_l.
  destruct (fl_small (v + ONE) 1 5) as (-> & B1); [lia | lia | lia |].
  rewrite fdiv_int by lia.
  set (y := round_units (v + ONE) 1) in *.
  destruct (fl_small y 2 3) as (-> & B2); [lia | lia | lia |].
  rewrite fmul_num_r by reflexivity.
  set (z := round_units y 2) in *.
  destruct (fl_small (z * 4) 1 12) as (-> & _); [lia | lia | lia |].
  reflexivity.
Qed.

Lemma array_get_integer {A : Type} (a : list A) q :
  0 <= q -> array_get a (Finite (q * ONE)) = nth_error a (Z.to_nat q).
Proof.
  intros Hq. pose proof ONE_pos as HO. unfold array_get.
  rewrite Z.mod_mul, Z.div_mul by lia. simpl.
  destruct (Z.leb_spec 0 (q * ONE)); [reflexivity | nia].
Qed.

Lemma array_get_negative {A : Type} (a : list A) k :
  k < 0 -> array_get a (Finite k) = None.
Proof.
  intros Hk. unfold array_get.
  destruct (Z.leb_spec 0 k); [lia|]. now rewrite andb_false_r.
Qed.

(** [getCx] on a seed with a finite hash, through the integer functions. *)
Lemma getCx_finite s x :
  RNG.hash s = Finite x -> - (2147483648 * ONE) <= x <= 2147483648 * ONE ->
  getCx s = array_get cxValues (Finite (indexU (scaleU x) / ONE * ONE)).
Proof.
  intros Hh Hx. unfold getCx.
  destruct (scale_finite x Hx) as [Hs Hb].
  rewrite Hh, Hs, index_finite by assumption. reflexivity.
Qed.

(** ** Computing at the small scale *)

Lemma scaleAt_shift one x k :
  0 <= k -> scale_normal x = true ->
  scaleAt (one * 2 ^ k) (x * 2 ^ k) = scaleAt one x * 2 ^ k.
Proof.
  intros Hk Hn. unfold scaleAt.
  rewrite Z.mul_assoc, round_units_pow2 by assumption.
  rewrite round_units_shift; [| lia | assumption |].
  - rewrite <- Z.mul_sub_distr_r. now apply round_units_pow2.
  - unfold scale_normal in Hn. apply orb_true_iff in Hn as [H | H].
    + apply Z.eqb_eq in H. subst x. left. apply round_units_0. lia.
    + right. now apply Z.leb_le.
Qed.

Lemma indexAt_shift one v k :
  0 <= k -> index_normal one v = true ->
  indexAt (one * 2 ^ k) (v * 2 ^ k) = indexAt one v * 2 ^ k.
Proof.
  intros Hk Hn. unfold indexAt.
  rewrite <- Z.mul_add_distr_r, round_units_pow2 by assumption.
  rewrite round_units_shift; [| lia | assumption |].
  - rewrite Z.mul_shuffle0. now apply round_units_pow2.
  - unfold index_normal in Hn. apply orb_true_iff in Hn as [H | H].
    + left. now apply Z.eqb_eq.
    + right. apply Z.leb_le in H. exact H.
Qed.

Lemma scaleU_at x : scaleU x = scaleAt ONE x.
Proof. reflexivity. Qed.

Lemma indexU_at v : indexU v = indexAt ONE v.
Proof. reflexivity. Qed.

Lemma scaleU_SMALL h :
  scale_normal (h * SMALL) = true ->
  scaleU (h * ONE) = scaleAt SMALL (h * SMALL) * 2 ^ 874.
Proof.
  intros Hn. rewrite scaleU_at.
  rewrite ONE_SMALL, Z.mul_assoc. apply scaleAt_shift; [lia | exact Hn].
Qed.

(** The index of [getCx], before the array access, for an integer hash. *)
Lemma index_SMALL h :
  scale_normal (h * SMALL) = true ->
  index_normal SMALL (scaleAt SMALL (h * SMALL)) = true ->
  indexU (scaleU (h * ONE)) / ONE = laneIndex h.
Proof.
  intros H1 H2. rewrite scaleU_SMALL by assumption.
  rewrite indexU_at, ONE_SMALL, indexAt_shift by (assumption || lia).
  unfold laneIndex. apply Z.div_mul_cancel_r.
  - pose proof SMALL_pos. lia.
  - pose proof (Z.pow_pos_nonneg 2 874). lia.
Qed.

Ltac small h :=
  rewrite (index_SMALL h) by (vm_compute; reflexivity); vm_compute; reflexivity.

(** The lane is given by the two high bits of the 31-bit hash. *)
Lemma lane_of_hash h :
  0 <= h <= 2147483646 -> indexU (scaleU (h * ONE)) / ONE = h / 536870912.
Proof.
  intros Hh. pose proof ONE_pos as HO.
  assert (Hb : forall lo hi q,
            lo <= h <= hi ->
            indexU (scaleU (lo * ONE)) / ONE = q ->
            indexU (scaleU (hi * ONE)) / ONE = q ->
            indexU (scaleU (h * ONE)) / ONE = q).
  { intros lo hi q [H1 H2] Hlo Hhi.
    assert (A : indexU (scaleU (lo * ONE)) <= indexU (scaleU (h * ONE)))
      by (apply indexU_mono, scaleU_mono; nia).
    assert (B : indexU (scaleU (h * ONE)) <= indexU (scaleU (hi * ONE)))
      by (apply indexU_mono, scaleU_mono; nia).
    apply (Z.div_le_mono _ _ ONE HO) in A, B. lia. }
  assert (Hq : 0 <= h / 536870912 <= 3).
  { split; [apply Z.div_pos; lia|].
    apply Z.lt_succ_r, Z.div_lt_upper_bound; lia. }
  pose proof (Z.mul_div_le h 536870912 ltac:(lia)) as L.
  pose proof (Z.mul_succ_div_gt h 536870912 ltac:(lia)) as U.
  assert (Hc : h / 536870912 = 0 \/ h / 536870912 = 1 \/
               h / 536870912 = 2 \/ h / 536870912 = 3) by lia.
  destruct Hc as [E | [E | [E | E]]]; rewrite E in *.
  - apply (Hb 0 536870911); [lia | small 0 | small 536870911].
  - apply (Hb 536870912 1073741823); [lia | small 536870912 | small 1073741823].
  - apply (Hb 1073741824 1610612735); [lia | small 1073741824 | small 1610612735].
  - apply (Hb 1610612736 2147483646); [lia | small 1610612736 | small 2147483646].
Qed.

(** [getCx] of a non-negative integer seed below 2^53. *)
Lemma getCx_lane s :
  0 <= s < 2 ^ 53 -> getCx #s = Some (20 + 20 * (hashZ s / 536870912)).
Proof.
  intros Hs. pose proof ONE_pos as HO.
  rewrite num_small by lia.
  destruct (hash_integer_small s Hs) as (Hh & Hr).
  rewrite (getCx_finite _ _ Hh) by nia.
  rewrite lane_of_hash by assumption.
  assert (Hq : 0 <= hashZ s / 536870912 <= 3).
  { split; [apply Z.div_pos; lia|].
    apply Z.lt_succ_r, Z.div_lt_upper_bound; lia. }
  rewrite array_get_integer by lia.
  assert (Hc : hashZ s / 536870912 = 0 \/ hashZ s / 536870912 = 1 \/
               hashZ s / 536870912 = 2 \/ hashZ s / 536870912 = 3) by lia.
  destruct Hc as [-> | [-> | [-> | ->]]]; reflexivity.
Qed.

(** Every seed that can be a note id gets one of the four lanes. *)
Lemma getCx_small_seed s :
  0 <= s < 2 ^ 53 ->
  exists i, 0 <= i <= 3 /\ getCx #s = Some (20 + 20 * i).
Proof.
  intros Hs. exists (hashZ s / 536870912). split; [|now apply getCx_lane].
  destruct (hash_integer_small s Hs) as (_ & Hr).
  split; [apply Z.div_pos; lia|].
  apply Z.lt_succ_r, Z.div_lt_upper_bound; lia.
Qed.

(** [getCx] of an integer seed whose index is negative. *)
Lemma getCx_negative_index s :
  Z.abs s < 2 ^ 53 ->
  scale_normal (hashZ s * SMALL) = true ->
  index_normal SMALL (scaleAt SMALL (hashZ s * SMALL)) = true ->
  laneIndex (hashZ s) < 0 ->
  getCx #s = None.
Proof.
  intros Hs H1 H2 H3. pose proof ONE_pos as HO.
  rewrite num_small by lia.
  pose proof (hashZ_range s) as Hr.
  rewrite (getCx_finite _ _ (hash_integer_finite s Hs)) by nia.
  rewrite index_SMALL by assumption.
  apply array_get_negative. nia.
Qed.

Example getCx_negative_seed : getCx #(-1) = None.
Proof. apply getCx_negative_index; vm_compute; reflexivity. Qed.

Example getCx_exact_arithmetic_seed :
  hashZ 230538014 = 0 /\ getCx #230538014 = Some 20.
Proof.
  split; [vm_compute; reflexivity|].
  rewrite getCx_lane by (vm_compute; split; [discriminate | reflexivity]).
  vm_compute. reflexivity.
Qed.

Lemma scale_hash_integer_lt_1 s :
  RNG.scale (RNG.hash (Finite (s * ONE))) = NaN \/
  exists d, RNG.scale (RNG.hash (Finite (s * ONE))) = Finite d /\ d < ONE.
Proof.
  destruct (hash_integer s) as [-> | ->]; [left; apply scale_NaN | right].
  pose proof (hashZ_not_max s) as Hne. pose proof (hashZ_range s) as Hr.
  pose proof ONE_pos as HO.
  exists (scaleU (hashZ s * ONE)). split; [apply scale_finite; nia|].
  eapply Z.le_lt_trans; [apply (scaleU_mono _ (2147483646 * ONE)); nia|].
  rewrite scaleU_SMALL by closed. rewrite ONE_SMALL.
  apply Z.mul_lt_mono_pos_r; [reflexivity | closed].
Qed.

Lemma no_integer_seed_scales_to_1 :
  ~ exists seed, integer seed /\ RNG.scale (RNG.hash seed) = #1%js.
Proof.
  intros (seed & (s & ->) & H).
  rewrite num_small, Z.mul_1_l in H by reflexivity.
  destruct (scale_hash_integer_lt_1 s) as [E | (d & E & Hd)]; rewrite E in H.
  - congruence.
  - injection H as ->. lia.
Qed.

(** ** Numbers that are multiples of 2^-200 *)

Lemma finite_SMALL r : Z.abs r <= 2 ^ 300 -> Z.abs (r * 2 ^ 874) < 2 ^ 2098.
Proof.
  intros H. rewrite Z.abs_mul.
  eapply Z.le_lt_trans; [apply Z.mul_le_mono_nonneg_r; [|exact H] | closed].
  apply Z.abs_nonneg.
Qed.

Lemma fl_SMALL z :
  Z.abs z <= 2 ^ 300 -> fl (z * 2 ^ 874) 1 = Finite (round_units z 1 * 2 ^ 874).
Proof.
  intros Hz. rewrite fl_finite; rewrite round_units_pow2 by lia; [reflexivity|].
  apply finite_SMALL.
  eapply Z.le_trans; [apply (round_units_abs_le z 1 (2 ^ 300)); lia | closed].
Qed.



Lemma hash_SMALL x :
  Z.abs x <= 2 ^ 260 ->
  RNG.hash (Finite (x * 2 ^ 874)) = Finite (hashAt SMALL x * 2 ^ 874).
Proof.
  intros Hx. destruct RNG_constants as (_ & Ec & Em).
  unfold RNG.hash, RNG.a, hashAt. rewrite Ec, Em, fmul_num by reflexivity.
  rewrite Z.mul_assoc, fl_SMALL
    by (rewrite Z.abs_mul; eapply Z.le_trans;
        [apply (Z.mul_le_mono_nonneg 1103515245 (2 ^ 31) (Z.abs x) (2 ^ 260)); lia | closed]).
  assert (Hp : Z.abs (round_units (1103515245 * x) 1) <= 2 ^ 292).
  { eapply Z.le_trans; [apply (round_units_abs_le _ 1 (2 ^ 292)); [lia|] | closed].
    rewrite Z.abs_mul. eapply Z.le_trans;
      [apply (Z.mul_le_mono_nonneg 1103515245 (2 ^ 31) (Z.abs x) (2 ^ 260)); lia | closed]. }
  rewrite fadd_num, ONE_SMALL, !Z.mul_assoc, <- Z.mul_add_distr_r.
  rewrite fl_SMALL
    by (eapply Z.le_trans; [apply Z.abs_triangle|];
        eapply Z.le_trans; [apply Z.add_le_mono_r, Hp | closed]).
  unfold frem.
  assert (Hm : 2147483648 * SMALL * 2 ^ 874 <> 0) by closed.
  destruct (Z.eqb_spec (2147483648 * SMALL * 2 ^ 874) 0); [contradiction|].
  rewrite Z.mul_rem_distr_r; [reflexivity | closed | closed].
Qed.

(** The scaled hash of a multiple of 2^-200, computed at the small scale. *)
Lemma scale_hash_SMALL x :
  Z.abs x <= 2 ^ 260 -> scale_normal (hashAt SMALL x) = true ->
  RNG.scale (RNG.hash (Finite (x * 2 ^ 874)))
  = Finite (scaleAt SMALL (hashAt SMALL x) * 2 ^ 874).
Proof.
  intros Hx Hn. rewrite hash_SMALL by assumption.
  assert (Hr : Z.abs (hashAt SMALL x) < 2147483648 * SMALL).
  { unfold hashAt. set (t := round_units _ 1).
    pose proof (Z.rem_bound_abs t (2147483648 * SMALL) ltac:(closed)).
    pose proof (Z.rem_bound_pos t (2147483648 * SMALL)).
    pose proof (Z.rem_bound_neg_pos t (2147483648 * SMALL)).
    pose proof SMALL_pos. lia. }
  destruct (scale_finite (hashAt SMALL x * 2 ^ 874)) as [-> _].
  - rewrite ONE_SMALL, Z.mul_assoc.
    pose proof (Z.pow_pos_nonneg 2 874 ltac:(lia) ltac:(lia)). nia.
  - rewrite scaleU_at, ONE_SMALL, scaleAt_shift by (assumption || lia). reflexivity.
Qed.

(** ** The fallback duration of [moveCircle] *)

Lemma scaleU_0 : scaleU 0 = - ONE.
Proof.
  rewrite <- (Z.mul_0_l ONE) at 1. rewrite scaleU_SMALL by closed.
  rewrite ONE_SMALL, <- Z.mul_opp_l. f_equal.
Qed.





(** [duration || endTime - startTime]: the second operand
    replaces 0 and NaN, every other number goes through. *)
Lemma durationOr_spec d note :
  durationOr (Some d) note =
  match d with
  | Finite 0 | NaN => (endTime note - startTime note)%js
  | _ => d
  end.
Proof.
  unfold durationOr, truthy. destruct d as [k | | |]; try reflexivity.
  destruct (Z.eqb_spec k 0) as [-> | Hk]; simpl; [reflexivity|].
  destruct k; [congruence | reflexivity | reflexivity].
Qed.

Lemma durationOr_negative k note :
  k < 0 -> durationOr (Some (Finite k)) note = Finite k.
Proof. intros Hk. rewrite durationOr_spec. destruct k; [lia | lia | reflexivity]. Qed.


(** 5.5, the end time of the sample notes. *)
Lemma eleven_halves : (#11 / #2)%js = Finite (11 * 2 ^ 199 * 2 ^ 874).
Proof.
  rewrite !num_small, fdiv_int by closed.
  assert (E : 11 * ONE = 11 * SMALL * 2 ^ 874) by (rewrite ONE_SMALL; ring).
  rewrite E, fl_finite; rewrite round_units_shift by (closed || (right; closed)).
  - f_equal.
  - apply finite_SMALL. closed.
Qed.






(** ** Comparisons of integers *)

Lemma fle_num a b :
  Z.abs a < 2 ^ 53 -> Z.abs b < 2 ^ 53 -> fle #a #b = (a <=? b).
Proof.
  intros Ha Hb. rewrite !num_small by assumption. unfold fle.
  pose proof ONE_pos as HO.
  destruct (Z.leb_spec a b).
  - apply Z.leb_le. now apply Z.mul_le_mono_nonneg_r; [lia|].
  - apply Z.leb_gt. now apply Z.mul_lt_mono_pos_r.
Qed.


(** The timer of [delay] for a whole number of milliseconds. *)
Lemma timerDelay_num d :
  Z.abs d < 2 ^ 53 ->
  timerDelay #d = (if (0 <=? d) && (d <=? 2147483647) then #d else #0)%js.
Proof.
  intros Hd. unfold timerDelay.
  rewrite (fle_num 0 d), (fle_num d 2147483647) by (assumption || reflexivity).
  reflexivity.
Qed.

(** * Loading the track *)


Lemma split_none sep s : contains sep s = false -> split sep s = [s].
Proof.
  induction s as [| ch s IH]; simpl; [reflexivity|].
  intros H. apply orb_false_iff in H as [H1 H2].
  rewrite H1, IH by assumption. reflexivity.
Qed.


Lemma split_line sep s t :
  contains sep s = false ->
  split sep (s ++ String sep t)%string = s :: split sep t.
Proof.
  induction s as [| ch s IH]; simpl.
  - intros _. now rewrite Ascii.eqb_refl.
  - intros H. apply orb_false_iff in H as [H1 H2].
    rewrite H1, IH by assumption. reflexivity.
Qed.

Lemma split_unlines line lines :
  Forall (fun l => contains LF l = false) (line :: lines) ->
  split LF (unlines (line :: lines)) = line :: lines.
Proof.
  revert line. induction lines as [| l lines IH]; intros line H.
  - simpl. apply split_none. now inversion H.
  - inversion H as [| ? ? H1 H2]; subst.
    change (unlines (line :: l :: lines)) with (line ++ String LF (unlines (l :: lines)))%string.
    rewrite split_line by assumption. now rewrite IH.
Qed.









Example loadCSV_track :
  loadCSV (unlines ["user_played,instrument_name,velocity,pitch,start,end";
                    "True,piano,100,60,5.0,5.5";
                    "";
                    "False, violin ,64,72,2,2.5";
                    ""])
  = Normal [ mkNote 0 true "piano" (#100 / #127)%js #60 #5 (#11 / #2)%js;
             mkNote 1 false "violin" (#64 / #127)%js #72 #2 (#5 / #2)%js ].
Proof. vm_compute. reflexivity. Qed.

(** * The scoring state across events *)

Lemma keepsState_ret {A : Type} (a : A) : keepsState (ret a).
Proof. intros w. split; reflexivity. Qed.

Lemma keepsState_bind {A B : Type} (h : Handler A) (k : A -> Handler B) :
  keepsState h -> (forall a, keepsState (k a)) -> keepsState (bind h k).
Proof.
  intros Hh Hk w. unfold bind. specialize (Hh w).
  destruct (h w) as [[a | e] w1]; simpl in *.
  - destruct Hh as [H1 H2], (Hk a w1) as [H3 H4]. split; congruence.
  - exact Hh.
Qed.

Lemma keepsState_modify f :
  (forall w, state (f w) = state w /\ gameover (f w) = gameover w) ->
  keepsState (modify f).
Proof. intros H w. exact (H w). Qed.

Lemma keepsState_forEach {A : Type} (f : A -> Handler unit) l :
  (forall x, keepsState (f x)) -> keepsState (forEach f l).
Proof.
  intros Hf. induction l as [| x l IH]; simpl.
  - apply keepsState_ret.
  - apply keepsState_bind; [apply Hf | intros _; exact IH].
Qed.

Section StateFacts.
Variable samples : list string.

Lemma keepsState_playSound cause note duration :
  keepsState (playSound samples cause note duration).
Proof.
  intros w. unfold playSound. destruct (loaded samples (instrument note)); split; reflexivity.
Qed.

Lemma keepsState_setCircle c ci : keepsState (setCircle c ci).
Proof. apply keepsState_modify. intros w. split; reflexivity. Qed.

Lemma keepsState_addNoteToKey key note : keepsState (addNoteToKey key note).
Proof. apply keepsState_modify. intros w. split; reflexivity. Qed.

Lemma keepsState_createCircleNote note : keepsState (createCircleNote note).
Proof.
  intros w. unfold createCircleNote.
  set (circle := length (circles w)). clearbody circle. revert w.
  apply keepsState_bind; [apply keepsState_modify; intros; split; reflexivity|].
  intros _. apply keepsState_bind; [apply keepsState_modify; intros; split; reflexivity|].
  intros _. apply keepsState_forEach. intros [key index].
  destruct (decide _); [apply keepsState_addNoteToKey | apply keepsState_ret].
Qed.

Lemma keepsState_moveTick c : keepsState (moveTick samples c).
Proof.
  intros w. unfold moveTick.
  destruct (circles w !! c) as [ci|]; [|split; reflexivity].
  destruct (completed ci); [split; reflexivity|].
  destruct (accum_Y ci + 2 <=? Viewport.CANVAS_HEIGHT).
  - revert w. apply keepsState_bind; [apply keepsState_setCircle|].
    intros _. destruct (_ >=? _); [|apply keepsState_ret].
    apply keepsState_bind; [apply keepsState_setCircle|].
    intros _. apply keepsState_playSound.
  - apply keepsState_setCircle.
Qed.

Lemma keepsState_handleKeyPress key note : keepsState (handleKeyPress samples key note).
Proof.
  intros w. unfold handleKeyPress.
  destruct (userPlayedNotesMap w !! id note) as [c|]; [|split; reflexivity].
  destruct (circles w !! c) as [ci|]; [|split; reflexivity].
  destruct (isNoteInTargetZone (cy ci)); [|split; reflexivity].
  revert w. apply keepsState_bind; [apply keepsState_playSound|].
  intros _. apply keepsState_bind; [apply keepsState_modify; intros; split; reflexivity|].
  intros _. apply keepsState_modify; intros; split; reflexivity.
Qed.

Lemma keepsState_keyDown code : keepsState (keyDown samples code).
Proof.
  unfold keyDown. destruct (keyOfCode code) as [key|]; [|apply keepsState_ret].
  intros w. apply keepsState_forEach. apply keepsState_handleKeyPress.
Qed.

Lemma keepsState_noteEmit note : keepsState (noteEmit samples note).
Proof.
  unfold noteEmit. destruct (user_played note);
    [apply keepsState_createCircleNote | apply keepsState_playSound].
Qed.

(** Only the clock writes the state, and what it writes is the initial
    state. *)
Lemma step_state e w :
  state (snd (step samples e w)) =
  match e with GameTick => initialState | _ => state w end.
Proof.
  destruct e as [note | c | code |]; simpl.
  - apply keepsState_noteEmit.
  - apply keepsState_moveTick.
  - apply keepsState_keyDown.
  - reflexivity.
Qed.

Lemma run_state trace w :
  state w = initialState -> state (run samples trace w) = initialState.
Proof.
  revert w. induction trace as [| e trace IH]; intros w Hw; simpl; [exact Hw|].
  apply IH. rewrite step_state. destruct e; auto.
Qed.

End StateFacts.

(** * Key presses *)

Lemma isNoteInTargetZone_window y :
  isNoteInTargetZone y = true <-> Z.abs (y - targetZone) <= 10.
Proof.
  unfold isNoteInTargetZone, targetZone.
  rewrite andb_true_iff, Z.geb_le, Z.leb_le. lia.
Qed.

Section KeyFacts.
Variable samples : list string.

Lemma handleKeyPress_skip key note w :
  inZone w note = false -> handleKeyPress samples key note w = (Normal tt, w).
Proof.
  unfold inZone, position, handleKeyPress.
  destruct (userPlayedNotesMap w !! id note) as [c|]; [|reflexivity].
  destruct (circles w !! c) as [ci|]; [|reflexivity].
  simpl. intros ->. reflexivity.
Qed.

Lemma handleKeyPress_hit key note w :
  inZone w note = true -> loaded samples (instrument note) = true ->
  exists c, userPlayedNotesMap w !! id note = Some c /\
            handleKeyPress samples key note w = (Normal tt, resolved key note c w).
Proof.
  unfold inZone, position, handleKeyPress.
  destruct (userPlayedNotesMap w !! id note) as [c|]; [|discriminate].
  destruct (circles w !! c) as [ci|]; [|discriminate].
  simpl. intros -> Hl. exists c. split; [reflexivity|].
  unfold bind, playSound. rewrite Hl. reflexivity.
Qed.

Lemma handleKeyPress_throw key note w :
  inZone w note = true -> loaded samples (instrument note) = false ->
  handleKeyPress samples key note w = (Throw TypeError, w).
Proof.
  unfold inZone, position, handleKeyPress.
  destruct (userPlayedNotesMap w !! id note) as [c|]; [|discriminate].
  destruct (circles w !! c) as [ci|]; [|discriminate].
  simpl. intros -> Hl. unfold bind, playSound. rewrite Hl. reflexivity.
Qed.

(** Resolving one note does not move any circle, and touches the map
    entry of that note only. *)
Lemma position_resolved key note c w other :
  id other <> id note -> position (resolved key note c w) other = position w other.
Proof.
  intros Hne. unfold position, resolved. simpl.
  rewrite lookup_delete_ne by congruence.
  destruct (userPlayedNotesMap w !! id other) as [c'|]; [|reflexivity].
  destruct (decide (c = c')) as [->|Hc].
  - rewrite list_lookup_alter_eq. destruct (circles w !! c'); reflexivity.
  - rewrite list_lookup_alter_ne by assumption. reflexivity.
Qed.

Lemma inZone_resolved key note c w other :
  id other <> id note -> inZone (resolved key note c w) other = inZone w other.
Proof. intros Hne. unfold inZone. now rewrite position_resolved. Qed.

(** A press on a lane when none of its notes is in the zone changes
    nothing. *)
Lemma forEach_no_hit key l w :
  (forall n, In n l -> inZone w n = false) ->
  forEach (handleKeyPress samples key) l w = (Normal tt, w).
Proof.
  induction l as [| n l IH]; intros H; simpl; [reflexivity|].
  unfold bind. rewrite handleKeyPress_skip by (apply H; now left).
  apply IH. intros n' Hn'. apply H. now right.
Qed.

(** A press on a lane resolves, in lane order, every note that is in the
    zone when the press arrives. *)
Lemma forEach_hits key l : forall w,
  NoDup (map id l) ->
  (forall n, In n l -> inZone w n = true -> loaded samples (instrument n) = true) ->
  exists w',
    forEach (handleKeyPress samples key) l w = (Normal tt, w') /\
    audio w' = audio w ++ map (hitPlayback key) (List.filter (inZone w) l) /\
    (forall n, In n l -> inZone w n = true ->
       userPlayedNotesMap w' !! id n = None /\
       exists c, userPlayedNotesMap w !! id n = Some c /\
                 attached <$> circles w' !! c = Some false) /\
    (forall i, userPlayedNotesMap w !! i = None -> userPlayedNotesMap w' !! i = None) /\
    (forall i, (forall n, In n l -> inZone w n = true -> id n <> i) ->
       userPlayedNotesMap w' !! i = userPlayedNotesMap w !! i) /\
    (forall c, cy <$> circles w' !! c = cy <$> circles w !! c) /\
    (forall c, attached <$> circles w !! c = Some false ->
       attached <$> circles w' !! c = Some false) /\
    activeNotes w' = activeNotes w.
Proof.
  induction l as [| n l IH]; intros w Hnd Hl.
  { exists w. simpl. rewrite app_nil_r. split_and!; auto.
    intros n []. }
  simpl in Hnd. apply NoDup_cons in Hnd as [Hn Hnd].
  assert (Hids : forall n', In n' l -> id n' <> id n).
  { intros n' Hin E. apply Hn, list_elem_of_In. rewrite <- E. now apply in_map. }
  simpl forEach. unfold bind at 1.
  destruct (inZone w n) eqn:Hz.
  - destruct (handleKeyPress_hit key n w Hz) as (c & Hc & ->);
      [apply Hl; [now left | exact Hz]|].
    set (w1 := resolved key n c w).
    assert (Hz1 : forall n', In n' l -> inZone w1 n' = inZone w n').
    { intros n' Hin. apply inZone_resolved. now apply Hids. }
    destruct (IH w1 Hnd) as (w' & -> & Ha & Hres & Hnone & Hother & Hcy & Hatt & Hlanes).
    { intros n' Hin Hz'. apply Hl; [now right|]. now rewrite <- Hz1. }
    exists w'. split; [reflexivity|].
    assert (Hmap1 : forall i, i <> id n ->
              userPlayedNotesMap w1 !! i = userPlayedNotesMap w !! i).
    { intros i Hi. unfold w1, resolved. simpl. now rewrite lookup_delete_ne. }
    assert (Hdet : attached <$> circles w1 !! c = Some false).
    { unfold inZone, position in Hz. rewrite Hc in Hz.
      unfold w1, resolved. simpl. rewrite list_lookup_alter_eq.
      destruct (circles w !! c); [reflexivity | discriminate]. }
    split_and!.
    + rewrite Ha. unfold w1 at 1, resolved. simpl. rewrite Hz. simpl.
      rewrite <- app_assoc. simpl. do 3 f_equal.
      apply filter_ext_in. intros n' Hin. now apply Hz1.
    + intros n' [<- | Hin] Hz'.
      * split; [apply Hnone; unfold w1, resolved; simpl; apply lookup_delete_eq|].
        exists c. split; [assumption|]. now apply Hatt.
      * destruct (Hres n' Hin) as (Hgone & c' & Hc' & Hatt'); [now rewrite Hz1|].
        split; [assumption|]. exists c'. split; [|assumption].
        rewrite <- Hmap1; [assumption|]. now apply Hids.
    + intros i Hi. apply Hnone.
      destruct (decide (i = id n)) as [->|Hne].
      * unfold w1, resolved. simpl. apply lookup_delete_eq.
      * now rewrite Hmap1.
    + intros i Hi. rewrite Hother.
      * apply Hmap1. intros E. apply (Hi n); [now left | assumption | now symmetry].
      * intros n' Hin Hz'. apply Hi; [now right|]. now rewrite <- Hz1.
    + intros c'. rewrite Hcy. unfold w1, resolved. simpl.
      destruct (decide (c = c')) as [->|Hne].
      * rewrite list_lookup_alter_eq. destruct (circles w !! c'); reflexivity.
      * now rewrite list_lookup_alter_ne.
    + intros c' Hc'. apply Hatt. unfold w1, resolved. simpl.
      destruct (decide (c = c')) as [->|Hne].
      * rewrite list_lookup_alter_eq.
        destruct (circles w !! c'); [reflexivity | discriminate].
      * now rewrite list_lookup_alter_ne.
    + rewrite Hlanes. reflexivity.
  - rewrite handleKeyPress_skip by assumption.
    destruct (IH w Hnd) as (w' & -> & Ha & Hres & Hnone & Hother & Hcy & Hatt & Hlanes).
    { intros n' Hin. apply Hl. now right. }
    exists w'. split; [reflexivity|]. simpl. rewrite Hz.
    split_and!; [exact Ha | | exact Hnone | | exact Hcy | exact Hatt | exact Hlanes].
    + intros n' [<- | Hin] Hz'; [congruence|]. now apply Hres.
    + intros i Hi. apply Hother. intros n' Hin. apply Hi. now right.
Qed.
End KeyFacts.

(** * Spawning a note *)

Lemma createCircleNote_spec note w :
  createCircleNote note w =
  (Normal tt,
   mkWorld (circles w ++ [mkCircle note 0 true 0 false])
           (<[id note := length (circles w)]> (userPlayedNotesMap w))
           (match laneOf note with
            | Some key => push key note (activeNotes w)
            | None => activeNotes w
            end)
           (state w) (gameover w) (audio w)).
Proof.
  unfold createCircleNote, laneOf.
  generalize (getCx #(id note)). intros [cx|].
  - unfold bind, modify, keyIndex, forEach, bind, addNoteToKey, modify, ret.
    change (20 + 0 * 20) with 20. change (20 + 1 * 20) with 40.
    change (20 + 2 * 20) with 60. change (20 + 3 * 20) with 80.
    repeat case_decide; simplify_eq; try reflexivity.
    destruct (Z.eqb_spec cx 20), (Z.eqb_spec cx 40), (Z.eqb_spec cx 60),
      (Z.eqb_spec cx 80); try congruence; reflexivity.
  - unfold bind, modify, keyIndex, forEach, bind, addNoteToKey, modify, ret.
    repeat case_decide; simplify_eq. reflexivity.
Qed.

(** * The fall of a circle *)

Lemma positionAfter_double k : positionAfter k = 2 * Z.of_nat k.
Proof.
  unfold positionAfter. induction k as [| k IH]; [reflexivity|].
  rewrite Nat.iter_succ, IH. lia.
Qed.

Lemma positionAfter_targetZone k : positionAfter k = targetZone <-> k = 180%nat.
Proof. rewrite positionAfter_double. unfold targetZone. lia. Qed.

Section FallFacts.
Variable samples : list string.

(** Above the bottom of the canvas an emission only moves the circle. *)
Lemma moveTick_falling c ci w :
  circles w !! c = Some ci -> completed ci = false ->
  accum_Y ci + 2 < Viewport.CANVAS_HEIGHT ->
  moveTick samples c w =
  (Normal tt,
   with_circles <[c := mkCircle (circle_note ci) (accum_Y ci + 2) (attached ci)
                                (accum_Y ci + 2) false]> w).
Proof.
  intros Hc Hd Hy. unfold moveTick. rewrite Hc, Hd.
  destruct (Z.leb_spec (accum_Y ci + 2) Viewport.CANVAS_HEIGHT); [|lia].
  unfold bind, setCircle, modify.
  destruct (Z.geb_spec (accum_Y ci + 2) Viewport.CANVAS_HEIGHT); [lia | reflexivity].
Qed.

(** At the bottom the circle is removed and the note is played with the
    fallback duration, whether or not a key press resolved it before. *)
Lemma moveTick_bottom c ci w :
  circles w !! c = Some ci -> completed ci = false ->
  accum_Y ci + 2 = Viewport.CANVAS_HEIGHT ->
  loaded samples (instrument (circle_note ci)) = true ->
  audio (snd (moveTick samples c w)) =
  audio w ++ [mkPlayback Miss (circle_note ci)
                (durationOr (Some (fallbackDuration (circle_note ci))) (circle_note ci))].
Proof.
  intros Hc Hd Hy Hl. unfold moveTick. rewrite Hc, Hd, Hy.
  unfold bind, setCircle, modify, playSound. simpl. rewrite Hl. reflexivity.
Qed.

(** What an emission can do to the sound log and the lanes. *)
Lemma moveTick_audio c w :
  activeNotes (snd (moveTick samples c w)) = activeNotes w /\
  (audio (snd (moveTick samples c w)) = audio w \/
   exists note d, audio (snd (moveTick samples c w)) = audio w ++ [mkPlayback Miss note d]).
Proof.
  unfold moveTick.
  destruct (circles w !! c) as [ci|]; [|split; [reflexivity | now left]].
  destruct (completed ci); [split; [reflexivity | now left]|].
  destruct (accum_Y ci + 2 <=? Viewport.CANVAS_HEIGHT);
    [|split; [reflexivity | now left]].
  unfold bind, setCircle, modify, playSound, ret.
  destruct (accum_Y ci + 2 >=? Viewport.CANVAS_HEIGHT);
    [|split; [reflexivity | now left]].
  simpl. destruct (loaded samples (instrument (circle_note ci)));
    (split; [reflexivity|]); [right | now left].
  eexists _, _. reflexivity.
Qed.

Lemma falling_steps c note k : forall (j : nat) w,
  circles w !! c =
    Some (mkCircle note (2 * Z.of_nat j) true (2 * Z.of_nat j) false) ->
  (j + k < 200)%nat ->
  let w' := run samples (repeat (MoveTick c) k) w in
  circles w' !! c =
    Some (mkCircle note (2 * Z.of_nat (j + k)) true (2 * Z.of_nat (j + k)) false) /\
  userPlayedNotesMap w' = userPlayedNotesMap w /\
  audio w' = audio w /\ activeNotes w' = activeNotes w.
Proof.
  induction k as [| k IH]; intros j w Hc Hk; simpl.
  - rewrite Nat.add_0_r. auto.
  - rewrite (moveTick_falling c _ w Hc); [| reflexivity | unfold Viewport.CANVAS_HEIGHT; simpl; lia].
    simpl snd. simpl accum_Y. simpl circle_note. simpl attached.
    set (w1 := with_circles _ w).
    destruct (IH (S j) w1) as (H1 & H2 & H3 & H4).
    + unfold w1. simpl. rewrite list_lookup_insert_eq by (eapply lookup_lt_Some; exact Hc).
      do 2 f_equal; lia.
    + lia.
    + replace (j + S k)%nat with (S j + k)%nat by lia. auto.
Qed.

(** After its note is emitted, k emissions of the interval leave the new
    circle at the k-th value of the scan. *)
Lemma falling_position note w k :
  user_played note = true -> (k < 200)%nat ->
  let c := length (circles w) in
  let w' := run samples (NoteEmit note :: repeat (MoveTick c) k) w in
  circles w' !! c = Some (mkCircle note (positionAfter k) true (positionAfter k) false) /\
  position w' note = Some (positionAfter k).
Proof.
  intros Hu Hk c w'.
  assert (H : circles w' !! c =
              Some (mkCircle note (positionAfter k) true (positionAfter k) false) /\
              userPlayedNotesMap w' !! id note = Some c).
  { unfold w'. simpl run. unfold noteEmit. rewrite Hu, createCircleNote_spec. simpl snd.
    set (w0 := mkWorld _ _ _ _ _ _).
    destruct (falling_steps c note k 0 w0) as (H1 & H2 & _); [| lia |].
    - unfold w0. simpl. rewrite lookup_app_r by reflexivity.
      unfold c. now rewrite Nat.sub_diag.
    - rewrite positionAfter_double. split; [exact H1|].
      rewrite H2. unfold w0. simpl. apply lookup_insert_eq. }
  destruct H as [H1 H2]. split; [exact H1|].
  unfold position. rewrite H2, H1. reflexivity.
Qed.
End FallFacts.

(** * Lanes and hits *)

Lemma lane_push key key' note n l :
  In n (lane key (push key' note l)) -> In n (lane key l) \/ (n = note /\ key = key').
Proof.
  destruct key, key'; simpl; rewrite ?in_app_iff; simpl; intuition.
Qed.

Section LaneFacts.
Variable samples : list string.

Lemma forEach_press_audio key l : forall w,
  let w' := snd (forEach (handleKeyPress samples key) l w) in
  activeNotes w' = activeNotes w /\
  exists hits, audio w' = audio w ++ map (hitPlayback key) hits /\ incl hits l.
Proof.
  induction l as [| n l IH]; intros w; simpl.
  { split; [reflexivity|]. exists []. simpl. rewrite app_nil_r. split; [reflexivity|].
    apply incl_nil_l. }
  unfold bind. destruct (inZone w n) eqn:Hz.
  - destruct (loaded samples (instrument n)) eqn:Hl.
    + destruct (handleKeyPress_hit samples key n w Hz Hl) as (c & _ & ->).
      destruct (IH (resolved key n c w)) as (H1 & hits & H2 & H3).
      split; [rewrite H1; reflexivity|].
      exists (n :: hits). split.
      * rewrite H2. unfold resolved. simpl. now rewrite <- app_assoc.
      * intros x [<- | Hx]; [now left | right; now apply H3].
    + rewrite (handleKeyPress_throw samples key n w Hz Hl). simpl.
      split; [reflexivity|]. exists []. simpl. rewrite app_nil_r.
      split; [reflexivity | apply incl_nil_l].
  - rewrite (handleKeyPress_skip samples key n w Hz).
    destruct (IH w) as (H1 & hits & H2 & H3).
    split; [exact H1|]. exists hits. split; [exact H2|].
    intros x Hx. right. now apply H3.
Qed.

Lemma assigned_step e w : assigned w -> assigned (snd (step samples e w)).
Proof.
  intros [Hlanes Hhits]. destruct e as [note | c | code |]; simpl.
  - unfold noteEmit. destruct (user_played note).
    + rewrite createCircleNote_spec. split; simpl; [|exact Hhits].
      intros key n Hin. destruct (laneOf note) as [key'|] eqn:Hk; [|now apply Hlanes].
      apply lane_push in Hin as [Hin | [-> ->]]; [now apply Hlanes | exact Hk].
    + unfold playSound. destruct (loaded samples (instrument note)); simpl;
        split; [exact Hlanes | | exact Hlanes | exact Hhits].
      intros p key Hin Hc. apply in_app_iff in Hin as [Hin | [<- | []]];
        [now apply (Hhits p) | discriminate].
  - destruct (moveTick_audio samples c w) as (Hl & Ha).
    split; [rewrite Hl; exact Hlanes|].
    destruct Ha as [-> | (note & d & ->)]; [exact Hhits|].
    intros p key Hin Hc. apply in_app_iff in Hin as [Hin | [<- | []]];
      [now apply (Hhits p) | discriminate].
  - unfold keyDown. destruct (keyOfCode code) as [key|]; [|split; assumption].
    destruct (forEach_press_audio key (lane key (activeNotes w)) w)
      as (Hl & hits & Ha & Hincl).
    split; [rewrite Hl; exact Hlanes|]. rewrite Ha.
    intros p key' Hin Hc. apply in_app_iff in Hin as [Hin | Hin];
      [now apply (Hhits p)|].
    apply in_map_iff in Hin as (n & <- & Hn). simpl in Hc. injection Hc as <-.
    simpl. apply Hlanes. now apply Hincl.
  - split; assumption.
Qed.

Lemma assigned_run trace : forall w, assigned w -> assigned (run samples trace w).
Proof.
  induction trace as [| e trace IH]; intros w Hw; simpl; [exact Hw|].
  apply IH. now apply assigned_step.
Qed.

Lemma assigned_initial : assigned initialWorld.
Proof. split; [intros [] n [] | intros p key []]. Qed.

End LaneFacts.

(** * Sessions of falling circles *)

Lemma run_app samples a b w :
  run samples (a ++ b) w = run samples b (run samples a w).
Proof. revert w. induction a as [| e a IH]; intros w; simpl; [reflexivity | apply IH]. Qed.

(** The lane of a note is given by the two high bits of the hash of its id. *)
Lemma laneOf_hash note :
  0 <= id note < 2 ^ 53 -> laneOf note = keyOfIndex (hashZ (id note) / 536870912).
Proof.
  intros Hid. unfold laneOf. rewrite getCx_lane by assumption.
  destruct (hash_integer_small (id note) Hid) as [_ Hh].
  set (q := hashZ (id note) / 536870912).
  assert (Hq : 0 <= q <= 3).
  { unfold q. split; [apply Z.div_pos; lia|].
    apply Z.lt_succ_r, Z.div_lt_upper_bound; lia. }
  clearbody q.
  assert (Hc : q = 0 \/ q = 1 \/ q = 2 \/ q = 3) by lia.
  destruct Hc as [-> | [-> | [-> | ->]]]; reflexivity.
Qed.

Lemma with_circles_id w : with_circles (fun cs => cs) w = w.
Proof. now destruct w. Qed.

Section Falls.
Variable samples : list string.

(** [k] emissions that keep the circle above the bottom of the canvas
    move it by [2 k] and do nothing else. *)
Lemma run_falling c note att k : forall y w,
  circles w !! c = Some (mkCircle note y att y false) ->
  y + 2 * Z.of_nat k < Viewport.CANVAS_HEIGHT ->
  run samples (repeat (MoveTick c) k) w =
  with_circles <[c := mkCircle note (y + 2 * Z.of_nat k) att
                               (y + 2 * Z.of_nat k) false]> w.
Proof.
  induction k as [| k IH]; intros y w Hc Hy.
  - simpl repeat. simpl run. rewrite Z.add_0_r.
    destruct w as [cs m l s g a]. unfold with_circles. simpl in *.
    now rewrite list_insert_id.
  - simpl repeat. simpl run.
    unfold Viewport.CANVAS_HEIGHT in *.
    rewrite (moveTick_falling samples c _ w Hc);
      [| reflexivity | unfold Viewport.CANVAS_HEIGHT; simpl accum_Y; lia].
    simpl snd. simpl accum_Y. simpl circle_note. simpl attached.
    rewrite (IH (y + 2)).
    + destruct w as [cs m l s g a]. unfold with_circles. simpl.
      rewrite list_insert_insert_eq. do 3 f_equal; lia.
    + simpl. apply list_lookup_insert_eq. eapply lookup_lt_Some. exact Hc.
    + lia.
Qed.

(** The world after a note is the first to be emitted and its circle has
    received [k] positions, none of them the bottom. *)
Lemma fallen_world note k :
  user_played note = true -> (k < 200)%nat ->
  fallen samples note k = oneCircle note (2 * Z.of_nat k) true.
Proof.
  intros Hu Hk. unfold fallen. simpl run. unfold noteEmit.
  rewrite Hu, createCircleNote_spec. simpl snd.
  erewrite (run_falling 0 note true k 0);
    [| reflexivity | unfold Viewport.CANVAS_HEIGHT; lia].
  reflexivity.
Qed.

Lemma position_oneCircle note y att : position (oneCircle note y att) note = Some y.
Proof.
  unfold position, oneCircle. simpl. now rewrite lookup_singleton_eq.
Qed.

Lemma inZone_oneCircle note y att :
  inZone (oneCircle note y att) note = isNoteInTargetZone y.
Proof. unfold inZone. now rewrite position_oneCircle. Qed.

Lemma lane_oneCircle note y att key :
  laneOf note = Some key ->
  lane key (activeNotes (oneCircle note y att)) = [note].
Proof. intros H. unfold oneCircle. simpl. rewrite H. now destruct key. Qed.

(** A press of its key when the only circle is in the zone. *)
Lemma press_oneCircle code key note y :
  keyOfCode code = Some key -> laneOf note = Some key ->
  isNoteInTargetZone y = true -> loaded samples (instrument note) = true ->
  step samples (KeyDown code) (oneCircle note y true)
  = (Normal tt, resolved key note 0 (oneCircle note y true)).
Proof.
  intros Hcode Hlane Hy Hl. simpl. unfold keyDown.
  rewrite Hcode, (lane_oneCircle _ _ _ _ Hlane). simpl forEach. unfold bind.
  destruct (handleKeyPress_hit samples key note (oneCircle note y true))
    as (c & Hc & ->); [now rewrite inZone_oneCircle | exact Hl |].
  unfold oneCircle in Hc. simpl in Hc. rewrite lookup_singleton_eq in Hc.
  injection Hc as <-. reflexivity.
Qed.

(** After the press the circle, no longer attached, keeps falling. *)
Lemma resolved_falling key note y k :
  y + 2 * Z.of_nat k < Viewport.CANVAS_HEIGHT ->
  run samples (repeat (MoveTick 0) k) (resolved key note 0 (oneCircle note y true))
  = with_circles <[0%nat := mkCircle note (y + 2 * Z.of_nat k) false
                                 (y + 2 * Z.of_nat k) false]>
      (resolved key note 0 (oneCircle note y true)).
Proof. intros Hy. now apply run_falling. Qed.

(** The world after two notes are the first to be emitted and the circle
    of each has received [k] positions, none of them the bottom. *)
Lemma two_fallen_world first second k :
  user_played first = true -> user_played second = true -> (k < 200)%nat ->
  run samples
      (NoteEmit first :: NoteEmit second ::
       repeat (MoveTick 0) k ++ repeat (MoveTick 1) k) initialWorld
  = mkWorld [mkCircle first (2 * Z.of_nat k) true (2 * Z.of_nat k) false;
             mkCircle second (2 * Z.of_nat k) true (2 * Z.of_nat k) false]
            (<[id second := 1%nat]> {[ id first := 0%nat ]})
            (let l := match laneOf first with
                      | Some key => push key first (activeNotes initialWorld)
                      | None => activeNotes initialWorld
                      end in
             match laneOf second with
             | Some key => push key second l
             | None => l
             end)
            initialState None [].
Proof.
  intros H1 H2 Hk. simpl run. unfold noteEmit.
  rewrite H1, createCircleNote_spec. simpl snd.
  rewrite H2, createCircleNote_spec. simpl snd.
  rewrite run_app.
  erewrite (run_falling 0 first true k 0);
    [| reflexivity | unfold Viewport.CANVAS_HEIGHT; lia].
  erewrite (run_falling 1 second true k 0);
    [| reflexivity | unfold Viewport.CANVAS_HEIGHT; lia].
  reflexivity.
Qed.
End Falls.

Lemma flt_irrefl x : flt x x = false.
Proof. destruct x; simpl; [apply Z.ltb_irrefl | reflexivity..]. Qed.

Lemma truthy_SMALL a : a <> 0 -> truthy (Finite (a * 2 ^ 874)) = true.
Proof.
  intros Ha. unfold truthy. apply negb_true_iff, Z.eqb_neq.
  pose proof (Z.pow_pos_nonneg 2 874 ltac:(lia) ltac:(lia)). nia.
Qed.

Lemma durationOr_truthy d note : truthy d = true -> durationOr (Some d) note = d.
Proof. intros H. unfold durationOr. now rewrite H. Qed.

Lemma outcomeOf_hit key note :
  outcomeOf (hitPlayback key note) = Some (HitOutcome key (id note)).
Proof. reflexivity. Qed.

Lemma outcomeOf_miss note d :
  outcomeOf (mkPlayback Miss note d) = Some (MissOutcome (laneOf note) (id note)).
Proof. reflexivity. Qed.

(** Ids 0 and 2 hash to lane H. *)
Lemma laneOf_id_0 note : id note = 0 -> laneOf note = Some KeyH.
Proof. intros E. rewrite laneOf_hash; rewrite E; [reflexivity | lia]. Qed.

Lemma laneOf_id_2 note : id note = 2 -> laneOf note = Some KeyH.
Proof. intros E. rewrite laneOf_hash; rewrite E; [vm_compute; reflexivity | lia]. Qed.

Section HitAndMiss.
Variable samples : list string.

(** A note that is hit in the zone is played a second time at the bottom
    of the canvas: the fall of its circle is not cancelled by the hit. *)
Lemma hit_then_bottom code key note k :
  user_played note = true -> keyOfCode code = Some key ->
  laneOf note = Some key -> loaded samples (instrument note) = true ->
  (175 <= k <= 185)%nat ->
  audio (run samples
           (NoteEmit note :: repeat (MoveTick 0) k ++ [KeyDown code]
            ++ repeat (MoveTick 0) (200 - k))
           initialWorld)
  = [hitPlayback key note;
     mkPlayback Miss note (durationOr (Some (fallbackDuration note)) note)].
Proof.
  intros Hu Hcode Hlane Hl Hk.
  change (NoteEmit note :: ?a ++ ?b) with ((NoteEmit note :: a) ++ b).
  rewrite run_app. fold (fallen samples note k).
  rewrite fallen_world by (assumption || lia).
  replace (200 - k)%nat with ((199 - k) + 1)%nat by lia.
  rewrite repeat_app, !run_app. simpl run at 2.
  change (keyDown samples code) with (step samples (KeyDown code)).
  rewrite (press_oneCircle samples code key note) by
    (try assumption; apply isNoteInTargetZone_window; unfold targetZone; lia).
  simpl snd. rewrite resolved_falling by (unfold Viewport.CANVAS_HEIGHT; lia).
  simpl repeat. simpl run.
  set (y := 2 * Z.of_nat k + 2 * Z.of_nat (199 - k)).
  rewrite (moveTick_bottom samples 0 (mkCircle note y false y false));
    [reflexivity | reflexivity | reflexivity
     | simpl; unfold y, Viewport.CANVAS_HEIGHT; lia | exact Hl].
Qed.

(** With a fallback duration that is neither 0 nor NaN, the two
    playbacks and the two outcomes of the note. *)
Lemma hit_then_miss code key note k :
  user_played note = true -> keyOfCode code = Some key ->
  laneOf note = Some key -> loaded samples (instrument note) = true ->
  (175 <= k <= 185)%nat -> truthy (fallbackDuration note) = true ->
  let trace := NoteEmit note :: repeat (MoveTick 0) k ++ [KeyDown code]
               ++ repeat (MoveTick 0) (200 - k) in
  let w := run samples trace initialWorld in
  audio w = [hitPlayback key note; mkPlayback Miss note (fallbackDuration note)] /\
  outcomes w = [HitOutcome key (id note); MissOutcome (Some key) (id note)].
Proof.
  intros Hu Hcode Hlane Hl Hk Ht trace w.
  assert (Ha : audio w = [hitPlayback key note;
                          mkPlayback Miss note (fallbackDuration note)]).
  { unfold w, trace. rewrite (hit_then_bottom code key) by assumption.
    now rewrite durationOr_truthy. }
  split; [exact Ha|]. unfold outcomes. rewrite Ha. simpl.
  unfold outcomeOf. simpl. now rewrite Hlane.
Qed.

(** A press of its key while the circle of a note is in the zone plays
    the note and leaves the scoring state as it was. *)
Lemma hit_in_zone code key note k :
  user_played note = true -> keyOfCode code = Some key ->
  laneOf note = Some key -> loaded samples (instrument note) = true ->
  (175 <= k <= 185)%nat ->
  let w := fallen samples note k in
  let w' := snd (step samples (KeyDown code) w) in
  audio w' = audio w ++ [hitPlayback key note] /\
  state w = initialState /\ state w' = initialState.
Proof.
  intros Hu Hcode Hlane Hl Hk w w'. unfold w', w.
  rewrite fallen_world by (assumption || lia).
  rewrite (press_oneCircle samples code key note) by
    (try assumption; apply isNoteInTargetZone_window; unfold targetZone; lia).
  split_and!; reflexivity.
Qed.
End HitAndMiss.

(** * Events, one by one *)

Lemma alter_as_insert {A : Type} (f : A -> A) (l : list A) i x :
  l !! i = Some x -> alter f i l = <[i := f x]> l.
Proof.
  revert i. induction l as [| y l IH]; intros [| i] H; simpl in *; try discriminate.
  - now injection H as ->.
  - f_equal. now apply IH.
Qed.

Lemma alter_out_of_range {A : Type} (f : A -> A) (l : list A) i :
  l !! i = None -> alter f i l = l.
Proof.
  revert i. induction l as [| y l IH]; intros [| i] H; simpl in *;
    try discriminate; try reflexivity.
  f_equal. now apply IH.
Qed.

Lemma advance_note ci : circle_note (advance ci) = circle_note ci.
Proof.
  unfold advance. destruct (completed ci); [reflexivity|].
  destruct (_ <? _); [reflexivity|]. destruct (_ =? _); reflexivity.
Qed.

Lemma advance_completed ci : completed ci = true -> advance ci = ci.
Proof. intros H. unfold advance. now rewrite H. Qed.

Section Steps.
Variable samples : list string.

(** One emission of [interval(10)]: the circle advances, and at the
    bottom the note is played if its sampler is loaded. *)
Lemma moveTick_world c w :
  snd (moveTick samples c w) =
  mkWorld (alter advance c (circles w)) (userPlayedNotesMap w) (activeNotes w)
          (state w) (gameover w)
          (audio w ++
           match circles w !! c with
           | Some ci =>
               if atBottom ci && loaded samples (instrument (circle_note ci))
               then [missPlayback (circle_note ci)] else []
           | None => []
           end).
Proof.
  destruct w as [cs m l s g a]. unfold moveTick. simpl circles. simpl audio.
  destruct (cs !! c) as [ci|] eqn:Hc.
  2:{ simpl. now rewrite alter_out_of_range, app_nil_r. }
  rewrite (alter_as_insert _ _ _ _ Hc). unfold advance, atBottom.
  destruct (completed ci) eqn:Hd.
  { simpl. now rewrite list_insert_id, app_nil_r. }
  unfold Viewport.CANVAS_HEIGHT. simpl negb. simpl andb.
  destruct (Z.leb_spec (accum_Y ci + 2) 400) as [Hle | Hgt].
  - unfold bind, setCircle, modify, with_circles. simpl.
    destruct (Z.geb_spec (accum_Y ci + 2) 400) as [Hge | Hlt].
    + assert (E : accum_Y ci + 2 = 400) by lia. rewrite E.
      change (400 <? 400) with false. change (400 =? 400) with true.
      simpl. rewrite list_insert_insert_eq. unfold playSound. simpl.
      destruct (loaded samples (instrument (circle_note ci))); simpl;
        [reflexivity | now rewrite app_nil_r].
    + destruct (Z.ltb_spec (accum_Y ci + 2) 400); [|lia].
      destruct (Z.eqb_spec (accum_Y ci + 2) 400); [lia|].
      simpl. now rewrite app_nil_r.
  - destruct (Z.ltb_spec (accum_Y ci + 2) 400); [lia|].
    destruct (Z.eqb_spec (accum_Y ci + 2) 400); [lia|].
    unfold setCircle, modify, with_circles. simpl. now rewrite app_nil_r.
Qed.

(** An emission throws exactly when it takes to the bottom the circle of
    a note whose sampler is not loaded. *)
Lemma moveTick_result c w :
  fst (moveTick samples c w) =
  match circles w !! c with
  | Some ci =>
      if atBottom ci && negb (loaded samples (instrument (circle_note ci)))
      then Throw TypeError else Normal tt
  | None => Normal tt
  end.
Proof.
  unfold moveTick. destruct (circles w !! c) as [ci|]; [|reflexivity].
  unfold atBottom. destruct (completed ci); [reflexivity|].
  unfold Viewport.CANVAS_HEIGHT. simpl negb. simpl andb.
  destruct (Z.leb_spec (accum_Y ci + 2) 400) as [Hle | Hgt].
  - unfold bind, setCircle, modify. simpl.
    destruct (Z.geb_spec (accum_Y ci + 2) 400) as [Hge | Hlt].
    + destruct (Z.eqb_spec (accum_Y ci + 2) 400); [|lia].
      unfold playSound. simpl.
      destruct (loaded samples (instrument (circle_note ci))); reflexivity.
    + destruct (Z.eqb_spec (accum_Y ci + 2) 400); [lia | reflexivity].
  - destruct (Z.eqb_spec (accum_Y ci + 2) 400); [lia | reflexivity].
Qed.

(** The three outcomes of [handleKeyPress]. *)
Lemma handleKeyPress_cases key n w :
  handleKeyPress samples key n w = (Normal tt, w) \/
  (loaded samples (instrument n) = false /\
   handleKeyPress samples key n w = (Throw TypeError, w)) \/
  exists c ci,
    userPlayedNotesMap w !! id n = Some c /\ circles w !! c = Some ci /\
    isNoteInTargetZone (cy ci) = true /\
    loaded samples (instrument n) = true /\
    handleKeyPress samples key n w = (Normal tt, resolved key n c w).
Proof.
  unfold handleKeyPress.
  destruct (userPlayedNotesMap w !! id n) as [c|] eqn:Hm; [|now left].
  destruct (circles w !! c) as [ci|] eqn:Hc; [|now left].
  destruct (isNoteInTargetZone (cy ci)) eqn:Hz; [|now left].
  unfold bind, playSound.
  destruct (loaded samples (instrument n)) eqn:Hl.
  - right. right. exists c, ci. auto.
  - right. left. auto.
Qed.

(** A property of the world that every resolution of a note keeps is
    kept by a key press. *)
Lemma forEach_press_invariant (I : World -> Prop) key l : forall w,
  (forall n c ci w, I w -> In n l ->
     userPlayedNotesMap w !! id n = Some c -> circles w !! c = Some ci ->
     isNoteInTargetZone (cy ci) = true ->
     loaded samples (instrument n) = true -> I (resolved key n c w)) ->
  I w -> I (snd (forEach (handleKeyPress samples key) l w)).
Proof.
  induction l as [| n l IH]; intros w Hres Hw; simpl; [exact Hw|].
  unfold bind.
  destruct (handleKeyPress_cases key n w)
    as [-> | [[_ ->] | (c & ci & Hm & Hc & Hz & Hl & ->)]].
  - apply IH; [|exact Hw]. intros n' c' ci' w' ? ?. apply Hres; [assumption | now right].
  - exact Hw.
  - apply IH.
    + intros n' c' ci' w' ? ?. apply Hres; [assumption | now right].
    + eapply Hres; eauto. now left.
Qed.

Lemma keyDown_invariant (I : World -> Prop) code w :
  (forall key n c ci w, I w -> keyOfCode code = Some key ->
     userPlayedNotesMap w !! id n = Some c -> circles w !! c = Some ci ->
     isNoteInTargetZone (cy ci) = true ->
     loaded samples (instrument n) = true -> I (resolved key n c w)) ->
  I w -> I (snd (keyDown samples code w)).
Proof.
  intros Hres Hw. unfold keyDown.
  destruct (keyOfCode code) as [key|] eqn:Hk; [|exact Hw].
  apply forEach_press_invariant; [|exact Hw].
  intros n c ci w' ? _. now apply Hres.
Qed.

(** A press completes normally when the samplers of the notes of the
    lane are loaded. *)
Lemma forEach_press_normal key l : forall w,
  (forall n, In n l -> loaded samples (instrument n) = true) ->
  fst (forEach (handleKeyPress samples key) l w) = Normal tt.
Proof.
  induction l as [| n l IH]; intros w Hl; simpl; [reflexivity|].
  unfold bind.
  destruct (handleKeyPress_cases key n w)
    as [-> | [[Hn _] | (c & ci & _ & _ & _ & _ & ->)]].
  - apply IH. intros n' ?. apply Hl. now right.
  - rewrite Hl in Hn by now left. discriminate.
  - apply IH. intros n' ?. apply Hl. now right.
Qed.

(** The world after the subscriber of [note$]. *)
Lemma noteEmit_world note w :
  snd (noteEmit samples note w) =
  if user_played note then
    mkWorld (circles w ++ [newCircle note])
            (<[id note := length (circles w)]> (userPlayedNotesMap w))
            (match laneOf note with
             | Some key => push key note (activeNotes w)
             | None => activeNotes w
             end)
            (state w) (gameover w) (audio w)
  else if loaded samples (instrument note) then
    with_audio (fun a => a ++ [mkPlayback Auto note
                                 (endTime note - startTime note)%js]) w
  else w.
Proof.
  unfold noteEmit. destruct (user_played note).
  - now rewrite createCircleNote_spec.
  - unfold playSound. destruct (loaded samples (instrument note)); reflexivity.
Qed.

Lemma run_invariant (I : World -> Prop) trace : forall w,
  (forall e w, I w -> I (snd (step samples e w))) ->
  I w -> I (run samples trace w).
Proof.
  induction trace as [| e trace IH]; intros w Hs Hw; simpl; [exact Hw|].
  apply IH; [exact Hs | now apply Hs].
Qed.
End Steps.

(** * What a session keeps *)

Lemma map_alter_same {A B : Type} (g : A -> B) (f : A -> A) (l : list A) i :
  (forall x, g (f x) = g x) -> map g (alter f i l) = map g l.
Proof.
  intros H. revert i. induction l as [| y l IH]; intros [| i]; simpl; try reflexivity.
  - f_equal. apply H.
  - f_equal. apply IH.
Qed.

Lemma lane_push_eqb key key' n l :
  lane key (push key' n l) = lane key l ++ (if Key_eqb key' key then [n] else []).
Proof. destruct key, key'; simpl; now rewrite ?app_nil_r. Qed.

Lemma advance_ok ci : circleOk ci -> circleOk (advance ci).
Proof.
  unfold circleOk, advance, Viewport.CANVAS_HEIGHT.
  intros (Hr & He & Hb & Hc).
  destruct (completed ci) eqn:Hd; [rewrite Hd; auto|].
  apply Z.even_spec in He as [q Hq].
  destruct (Z.ltb_spec (accum_Y ci + 2) 400); simpl.
  - split_and!; [lia | lia | | lia | reflexivity].
    apply Z.even_spec. exists (q + 1). lia.
  - destruct (Z.eqb_spec (accum_Y ci + 2) 400); simpl.
    + split_and!; [lia | lia | | reflexivity | reflexivity].
      apply Z.even_spec. exists (q + 1). lia.
    + assert (cy ci = 400) by lia.
      split_and!; [lia | lia | | apply Hb; lia | lia | lia].
      apply Z.even_spec. exists q. lia.
Qed.

Lemma detach_ok ci : circleOk ci -> circleOk (detach ci).
Proof.
  unfold circleOk, detach. simpl. intros (Hr & He & Hb & Hc). auto.
Qed.

Lemma newCircle_ok note : circleOk (newCircle note).
Proof.
  unfold circleOk, newCircle, Viewport.CANVAS_HEIGHT. simpl.
  split_and!; [lia | lia | reflexivity | discriminate | reflexivity].
Qed.

Lemma Forall_alter_ok {A : Type} (P : A -> Prop) (f : A -> A) (l : list A) i :
  (forall x, P x -> P (f x)) -> Forall P l -> Forall P (alter f i l).
Proof.
  intros Hf H. revert i. induction H as [| x l Hx Hl IH]; intros [| i].
  - constructor.
  - constructor.
  - constructor; [apply Hf, Hx | exact Hl].
  - constructor; [exact Hx | apply IH].
Qed.

Section Sessions.
Variable samples : list string.

Lemma step_lanes e w :
  activeNotes (snd (step samples e w)) =
  match e with
  | NoteEmit n =>
      if user_played n then
        match laneOf n with
        | Some key => push key n (activeNotes w)
        | None => activeNotes w
        end
      else activeNotes w
  | _ => activeNotes w
  end.
Proof.
  destruct e as [n | c | code |]; simpl.
  - rewrite noteEmit_world. destruct (user_played n); [reflexivity|].
    destruct (loaded samples (instrument n)); reflexivity.
  - now rewrite moveTick_world.
  - apply (keyDown_invariant samples (fun w' => activeNotes w' = activeNotes w));
      [|reflexivity].
    intros key n c ci w' Hw' _ _ _ _ _. exact Hw'.
  - reflexivity.
Qed.

Lemma lanes_run key trace : forall w,
  lane key (activeNotes (run samples trace w))
  = lane key (activeNotes w) ++ List.filter (inLane key) (emitted trace).
Proof.
  induction trace as [| e trace IH]; intros w; simpl run.
  - simpl. now rewrite app_nil_r.
  - rewrite IH, step_lanes. destruct e as [n | c | code |]; try reflexivity.
    simpl emitted. destruct (user_played n); [|reflexivity].
    simpl List.filter. unfold inLane at 2.
    destruct (laneOf n) as [key'|]; [|reflexivity].
    rewrite lane_push_eqb. destruct (Key_eqb key' key); simpl.
    + now rewrite <- app_assoc.
    + now rewrite app_nil_r.
Qed.

Lemma step_circle_notes e w :
  map circle_note (circles (snd (step samples e w))) =
  map circle_note (circles w) ++
  match e with
  | NoteEmit n => if user_played n then [n] else []
  | _ => []
  end.
Proof.
  destruct e as [n | c | code |]; simpl.
  - rewrite noteEmit_world. destruct (user_played n).
    + simpl. now rewrite map_app.
    + rewrite app_nil_r. destruct (loaded samples (instrument n)); reflexivity.
  - rewrite moveTick_world, app_nil_r. simpl.
    apply map_alter_same, advance_note.
  - rewrite app_nil_r.
    apply (keyDown_invariant samples
             (fun w' => map circle_note (circles w') = map circle_note (circles w)));
      [|reflexivity].
    intros key n c ci w' Hw' _ _ _ _ _. rewrite <- Hw'. unfold resolved. simpl.
    now apply map_alter_same.
  - now rewrite app_nil_r.
Qed.

Lemma circles_run trace : forall w,
  map circle_note (circles (run samples trace w))
  = map circle_note (circles w) ++ emitted trace.
Proof.
  induction trace as [| e trace IH]; intros w; simpl run.
  - simpl. now rewrite app_nil_r.
  - rewrite IH, step_circle_notes, <- app_assoc. f_equal.
    destruct e as [n | c | code |]; try reflexivity.
    simpl. destruct (user_played n); reflexivity.
Qed.

Lemma step_circles_ok e w :
  Forall circleOk (circles w) -> Forall circleOk (circles (snd (step samples e w))).
Proof.
  intros Hw. destruct e as [n | c | code |]; simpl.
  - rewrite noteEmit_world. destruct (user_played n).
    + simpl. apply Forall_app. split; [exact Hw|].
      constructor; [apply newCircle_ok | constructor].
    + destruct (loaded samples (instrument n)); exact Hw.
  - rewrite moveTick_world. simpl. apply Forall_alter_ok; [apply advance_ok | exact Hw].
  - apply (keyDown_invariant samples (fun w' => Forall circleOk (circles w')));
      [|exact Hw].
    intros key n c ci w' Hw' _ _ _ _ _. unfold resolved. simpl.
    apply Forall_alter_ok; [apply detach_ok | exact Hw'].
  - exact Hw.
Qed.

Lemma step_mapValid e w : mapValid w -> mapValid (snd (step samples e w)).
Proof.
  intros Hw. destruct e as [n | c0 | code |]; simpl.
  - rewrite noteEmit_world. destruct (user_played n).
    + intros i c. simpl. intros H.
      apply lookup_insert_Some in H as [[<- <-] | [Hne H]].
      * exists (newCircle n). split; [|reflexivity].
        now rewrite lookup_app_r, Nat.sub_diag.
      * destruct (Hw i c H) as (ci & Hc & Hi). exists ci. split; [|exact Hi].
        now apply lookup_app_l_Some.
    + destruct (loaded samples (instrument n)); exact Hw.
  - rewrite moveTick_world. intros i c. simpl. intros H.
    destruct (Hw i c H) as (ci & Hc & Hi).
    destruct (decide (c0 = c)) as [-> | Hne].
    + exists (advance ci). rewrite list_lookup_alter_eq, Hc.
      split; [reflexivity | now rewrite advance_note].
    + exists ci. now rewrite list_lookup_alter_ne.
  - apply (keyDown_invariant samples mapValid); [|exact Hw].
    intros key n c1 ci1 w' Hw' _ _ _ _ _ i c. unfold resolved. simpl. intros H.
    apply lookup_delete_Some in H as [Hne H].
    destruct (Hw' i c H) as (ci & Hc & Hi).
    destruct (decide (c1 = c)) as [-> | Hne'].
    + exists (detach ci). rewrite list_lookup_alter_eq, Hc. split; [reflexivity | exact Hi].
    + exists ci. now rewrite list_lookup_alter_ne.
  - exact Hw.
Qed.
End Sessions.

(** * The fall of a circle to the bottom and beyond *)

Lemma iter_advance_new note k :
  Nat.iter k advance (newCircle note) =
  if (k <? 200)%nat then mkCircle note (2 * Z.of_nat k) true (2 * Z.of_nat k) false
  else if (k =? 200)%nat then mkCircle note 400 false 400 false
  else mkCircle note 400 false 402 true.
Proof.
  induction k as [| k IH]; [reflexivity|].
  rewrite Nat.iter_succ, IH. clear IH.
  destruct (Nat.ltb_spec k 200) as [Hk | Hk].
  - unfold advance, Viewport.CANVAS_HEIGHT. simpl completed. simpl accum_Y.
    simpl circle_note. simpl attached. cbv iota.
    destruct (Nat.ltb_spec (S k) 200) as [Hk' | Hk'].
    + destruct (Z.ltb_spec (2 * Z.of_nat k + 2) 400); [|lia]. f_equal; lia.
    + destruct (Nat.eqb_spec (S k) 200); [|lia].
      destruct (Z.ltb_spec (2 * Z.of_nat k + 2) 400); [lia|].
      destruct (Z.eqb_spec (2 * Z.of_nat k + 2) 400); [|lia]. f_equal; lia.
  - destruct (Nat.ltb_spec (S k) 200); [lia|].
    destruct (Nat.eqb_spec (S k) 200); [lia|].
    destruct (Nat.eqb_spec k 200); reflexivity.
Qed.

Lemma iter_advance_note note k :
  circle_note (Nat.iter k advance (newCircle note)) = note.
Proof.
  rewrite iter_advance_new. destruct (_ <? _)%nat; [reflexivity|].
  destruct (_ =? _)%nat; reflexivity.
Qed.

Lemma iter_advance_bottom note k :
  atBottom (Nat.iter k advance (newCircle note)) = (k =? 199)%nat.
Proof.
  rewrite iter_advance_new. unfold atBottom, Viewport.CANVAS_HEIGHT.
  destruct (Nat.ltb_spec k 200).
  - simpl. destruct (Z.eqb_spec (2 * Z.of_nat k + 2) 400), (Nat.eqb_spec k 199);
      reflexivity || lia.
  - destruct (Nat.eqb_spec k 200), (Nat.eqb_spec k 199); reflexivity || lia.
Qed.

Lemma iter_advance_cy note k :
  cy (Nat.iter k advance (newCircle note)) = Z.min (2 * Z.of_nat k) 400.
Proof.
  rewrite iter_advance_new. destruct (Nat.ltb_spec k 200); [simpl; lia|].
  destruct (_ =? _)%nat; simpl; lia.
Qed.

Lemma iter_advance_attached note k :
  attached (Nat.iter k advance (newCircle note)) = (k <? 200)%nat.
Proof.
  rewrite iter_advance_new. destruct (_ <? _)%nat; [reflexivity|].
  destruct (_ =? _)%nat; reflexivity.
Qed.

Section Bottom.
Variable samples : list string.

Lemma fallen_succ note k :
  fallen samples note (S k) = snd (step samples (MoveTick 0) (fallen samples note k)).
Proof.
  unfold fallen. change (repeat (MoveTick 0) (S k))
    with (MoveTick 0 :: repeat (MoveTick 0) k).
  rewrite repeat_cons.
  change (NoteEmit note :: ?a ++ ?b) with ((NoteEmit note :: a) ++ b).
  now rewrite run_app.
Qed.

Lemma moveTick_single ci m l s g a :
  snd (moveTick samples 0 (mkWorld [ci] m l s g a)) =
  mkWorld [advance ci] m l s g
          (a ++ if atBottom ci && loaded samples (instrument (circle_note ci))
                then [missPlayback (circle_note ci)] else []).
Proof. now rewrite moveTick_world. Qed.

(** The world after a note is the first to be emitted and its circle has
    received [k] positions, for every [k]. *)
Lemma fallen_k_world note k :
  user_played note = true ->
  fallen samples note k =
  mkWorld [Nat.iter k advance (newCircle note)] {[ id note := 0%nat ]}
          (match laneOf note with
           | Some key => push key note (activeNotes initialWorld)
           | None => activeNotes initialWorld
           end)
          initialState None
          (if (200 <=? k)%nat && loaded samples (instrument note)
           then [missPlayback note] else []).
Proof.
  intros Hu. induction k as [| k IH].
  - unfold fallen. simpl run. unfold noteEmit.
    now rewrite Hu, createCircleNote_spec.
  - rewrite fallen_succ, IH.
    change (step samples (MoveTick 0)) with (moveTick samples 0).
    rewrite moveTick_single, iter_advance_bottom, iter_advance_note.
    change (advance (Nat.iter k advance (newCircle note)))
      with (Nat.iter (S k) advance (newCircle note)).
    f_equal.
    destruct (loaded samples (instrument note)); rewrite ?andb_false_r, ?andb_true_r.
    + destruct (Nat.leb_spec 200 k), (Nat.eqb_spec k 199), (Nat.leb_spec 200 (S k));
        reflexivity || lia.
    + reflexivity.
Qed.
End Bottom.

(** * Presses, sounds and exceptions *)

Lemma hitsOf_app i a b : hitsOf i (a ++ b) = (hitsOf i a + hitsOf i b)%nat.
Proof. unfold hitsOf. now rewrite List.filter_app, length_app. Qed.

Lemma emitted_In n trace : In n (emitted trace) -> In (NoteEmit n) trace.
Proof.
  induction trace as [| e trace IH]; simpl; [auto|].
  destruct e as [n' | c | code |]; auto.
  destruct (user_played n'); [|auto].
  intros [-> | H]; [now left | right; auto].
Qed.

Lemma emitted_app a b : emitted (a ++ b) = emitted a ++ emitted b.
Proof.
  induction a as [| e a IH]; [reflexivity|]. simpl.
  destruct e as [n | c | code |]; auto.
  destruct (user_played n); simpl; now rewrite IH.
Qed.

Section Presses.
Variable samples : list string.

(** A second press right after a press finds nothing to resolve. *)
Lemma press_twice key l w :
  NoDup (map id l) ->
  (forall n, In n l -> inZone w n = true -> loaded samples (instrument n) = true) ->
  let w' := snd (forEach (handleKeyPress samples key) l w) in
  fst (forEach (handleKeyPress samples key) l w) = Normal tt /\
  activeNotes w' = activeNotes w /\
  forEach (handleKeyPress samples key) l w' = (Normal tt, w').
Proof.
  intros Hnd Hl w'.
  destruct (forEach_hits samples key l w Hnd Hl)
    as (w1 & Hs & _ & Hres & _ & Hother & Hcy & _ & Hlanes).
  unfold w'. rewrite Hs. simpl. split; [reflexivity|]. split; [exact Hlanes|].
  apply forEach_no_hit. intros n Hn.
  destruct (inZone w n) eqn:Hz.
  - destruct (Hres n Hn Hz) as [Hgone _].
    unfold inZone, position. now rewrite Hgone.
  - rewrite <- Hz. unfold inZone, position. rewrite Hother.
    + destruct (userPlayedNotesMap w !! id n) as [c|]; [|reflexivity].
      now rewrite Hcy.
    + intros m Hm Hzm E.
      assert (m = n); [|congruence].
      clear - Hnd Hm Hn E. induction l as [| x l IH]; [destruct Hm|].
      simpl in Hnd. apply NoDup_cons in Hnd as [Hx Hnd].
      rewrite list_elem_of_In in Hx.
      destruct Hm as [<- | Hm], Hn as [<- | Hn]; [reflexivity | | |now apply IH].
      * exfalso. apply Hx. rewrite E. now apply in_map.
      * exfalso. apply Hx. rewrite <- E. now apply in_map.
Qed.

(** Only notes whose sampler is loaded are ever played. *)
Lemma step_audio_loaded e w :
  Forall (fun p => loaded samples (instrument (played p)) = true) (audio w) ->
  Forall (fun p => loaded samples (instrument (played p)) = true)
         (audio (snd (step samples e w))).
Proof.
  intros Hw. destruct e as [n | c | code |]; simpl.
  - rewrite noteEmit_world. destruct (user_played n); [exact Hw|].
    destruct (loaded samples (instrument n)) eqn:Hl; [|exact Hw].
    simpl. apply Forall_app. split; [exact Hw|]. now repeat constructor.
  - rewrite moveTick_world. simpl. apply Forall_app. split; [exact Hw|].
    destruct (circles w !! c) as [ci|]; [|constructor].
    destruct (atBottom ci); [|constructor].
    destruct (loaded samples (instrument (circle_note ci))) eqn:Hl; simpl;
      now repeat constructor.
  - apply (keyDown_invariant samples
             (fun w' => Forall (fun p => loaded samples (instrument (played p)) = true)
                               (audio w'))); [|exact Hw].
    intros key n c ci w' Hw' _ _ _ _ Hl. unfold resolved. simpl.
    apply Forall_app. split; [exact Hw'|]. now repeat constructor.
  - exact Hw.
Qed.

(** No playback is ever taken back. *)
Lemma step_audio_grows e w p :
  In p (audio w) -> In p (audio (snd (step samples e w))).
Proof.
  intros Hw. destruct e as [n | c | code |]; simpl.
  - rewrite noteEmit_world. destruct (user_played n); [exact Hw|].
    destruct (loaded samples (instrument n)); [|exact Hw].
    simpl. apply in_app_iff. now left.
  - rewrite moveTick_world. simpl. apply in_app_iff. now left.
  - apply (keyDown_invariant samples (fun w' => In p (audio w'))); [|exact Hw].
    intros key n c ci w' Hw' _ _ _ _ _. unfold resolved. simpl.
    apply in_app_iff. now left.
  - exact Hw.
Qed.

Lemma run_audio_grows trace w p :
  In p (audio w) -> In p (audio (run samples trace w)).
Proof.
  intros H. apply (run_invariant samples (fun w' => In p (audio w'))); [|exact H].
  intros e w'. apply step_audio_grows.
Qed.

(** Events other than its own emissions leave a circle where it is in
    its fall. *)
Lemma step_other_keeps_fall e w c ci :
  e <> MoveTick c -> circles w !! c = Some ci ->
  sameFall c ci (snd (step samples e w)).
Proof.
  intros He Hc.
  assert (Hw : sameFall c ci w) by (exists ci; auto).
  destruct e as [n | c' | code |]; simpl.
  - rewrite noteEmit_world. destruct (user_played n).
    + exists ci. simpl. split; [now apply lookup_app_l_Some | auto].
    + destruct (loaded samples (instrument n)); exact Hw.
  - rewrite moveTick_world. exists ci. simpl.
    rewrite list_lookup_alter_ne by congruence. auto.
  - apply (keyDown_invariant samples (sameFall c ci)); [|exact Hw].
    intros key n c1 ci1 w' (ci' & H1 & H2 & H3 & H4) _ _ _ _ _.
    unfold resolved, sameFall. simpl.
    destruct (decide (c1 = c)) as [-> | Hne].
    + exists (detach ci'). rewrite list_lookup_alter_eq, H1. auto.
    + exists ci'. rewrite list_lookup_alter_ne by assumption. auto.
  - exact Hw.
Qed.

(** Once the interval of a circle has emitted often enough, the note has
    been played as a miss, whatever else happened in between. *)
Lemma miss_after_ticks trace : forall w c ci (n : nat),
  circles w !! c = Some ci -> completed ci = false ->
  accum_Y ci + 2 * Z.of_nat n = Viewport.CANVAS_HEIGHT -> (0 < n)%nat ->
  loaded samples (instrument (circle_note ci)) = true ->
  (n <= ticksOf c trace)%nat ->
  In (missPlayback (circle_note ci)) (audio (run samples trace w)).
Proof.
  unfold Viewport.CANVAS_HEIGHT.
  induction trace as [| e trace IH]; intros w c ci n Hc Hd Hy Hn Hl Ht;
    [simpl in Ht; lia|].
  simpl run.
  assert (Hcase : (exists c', e = MoveTick c' /\ c' = c) \/
                  (e <> MoveTick c /\ ticksOf c (e :: trace) = ticksOf c trace)).
  { destruct e as [n' | c' | code |]; try (right; split; [discriminate | reflexivity]).
    simpl. destruct (Nat.eqb_spec c' c) as [-> | Hne].
    - left. eauto.
    - right. split; [congruence | reflexivity]. }
  destruct Hcase as [(c' & -> & ->) | [He Hsame]].
  - simpl in Ht. rewrite Nat.eqb_refl in Ht. simpl step.
    destruct (Nat.eq_dec n 1%nat) as [-> | Hn1].
    + apply run_audio_grows. rewrite moveTick_world. simpl. rewrite Hc.
      unfold atBottom, Viewport.CANVAS_HEIGHT. rewrite Hd, Hl.
      destruct (Z.eqb_spec (accum_Y ci + 2) 400); [|lia].
      apply in_app_iff. right. now left.
    + assert (Ha : advance ci = mkCircle (circle_note ci) (accum_Y ci + 2)
                                         (attached ci) (accum_Y ci + 2) false).
      { unfold advance, Viewport.CANVAS_HEIGHT. rewrite Hd.
        destruct (Z.ltb_spec (accum_Y ci + 2) 400); [reflexivity | lia]. }
      rewrite <- (advance_note ci).
      apply (IH _ c (advance ci) (n - 1)%nat).
      * rewrite moveTick_world. simpl. now rewrite list_lookup_alter_eq, Hc.
      * now rewrite Ha.
      * rewrite Ha. simpl. lia.
      * lia.
      * now rewrite advance_note.
      * lia.
  - destruct (step_other_keeps_fall e w c ci He Hc) as (ci' & H1 & H2 & H3 & H4).
    rewrite <- H4. apply (IH _ c ci' n); try congruence; lia.
Qed.

Lemma gameTick_world w :
  snd (gameTick w) = mkWorld (circles w) (userPlayedNotesMap w) (activeNotes w)
                             initialState (Some false) (audio w).
Proof. reflexivity. Qed.

(** A note is hit at most once. *)
Lemma step_hitsOnce e w pending :
  hitsOnce pending w ->
  match e with
  | NoteEmit n => user_played n = true -> False
  | _ => True
  end ->
  hitsOnce pending (snd (step samples e w)).
Proof.
  intros Hw He. destruct e as [n | c | code |]; simpl.
  - rewrite noteEmit_world. destruct (user_played n); [now destruct He|].
    destruct (loaded samples (instrument n)); [|exact Hw].
    destruct Hw as (H1 & H2 & H3). unfold hitsOnce. simpl.
    assert (E : forall i, hitsOf i (audio w ++ [mkPlayback Auto n (endTime n - startTime n)%js])
                          = hitsOf i (audio w))
      by (intros i; rewrite hitsOf_app; unfold hitsOf; simpl; lia).
    split_and!; intros; rewrite ?E; eauto.
  - rewrite moveTick_world.
    destruct Hw as (H1 & H2 & H3). unfold hitsOnce. simpl.
    set (extra := match circles w !! c with Some _ => _ | None => _ end).
    assert (E : forall i, hitsOf i (audio w ++ extra) = hitsOf i (audio w)).
    { intros i. rewrite hitsOf_app. unfold extra.
      destruct (circles w !! c) as [ci|]; [|unfold hitsOf; simpl; lia].
      destruct (_ && _); unfold hitsOf; simpl; lia. }
    split_and!; intros; rewrite ?E; eauto.
  - apply (keyDown_invariant samples (hitsOnce pending)); [|exact Hw].
    intros key n c ci w' (H1 & H2 & H3) _ Hm _ _ _.
    unfold hitsOnce, resolved. simpl.
    assert (E : forall i, hitsOf i (audio w' ++ [hitPlayback key n])
                          = (hitsOf i (audio w') + (if (id n =? i)%Z then 1 else 0))%nat).
    { intros i. rewrite hitsOf_app. unfold hitsOf at 2. simpl.
      unfold isHitOf. simpl. destruct (id n =? i); reflexivity. }
    split_and!.
    + intros i Hi. destruct (H1 i Hi) as [Hnone Hzero].
      rewrite E, Hzero. destruct (Z.eqb_spec (id n) i) as [<- | Hne]; [congruence|].
      split; [now rewrite lookup_delete_ne | reflexivity].
    + intros i c' Hi. apply lookup_delete_Some in Hi as [Hne Hi].
      rewrite E, (H2 i c' Hi). destruct (Z.eqb_spec (id n) i); [congruence | reflexivity].
    + intros i. rewrite E. destruct (Z.eqb_spec (id n) i) as [<- | Hne].
      * rewrite (H2 _ _ Hm). lia.
      * specialize (H3 i). lia.
  - exact Hw.
Qed.

Lemma run_hitsOnce trace : forall w,
  NoDup (map id (emitted trace)) ->
  hitsOnce (map id (emitted trace)) w ->
  hitsOnce [] (run samples trace w).
Proof.
  induction trace as [| e trace IH]; intros w Hnd Hw; [exact Hw|].
  simpl run.
  destruct e as [n | c | code |];
    try (apply IH; [exact Hnd | apply step_hitsOnce; [exact Hw | exact I]]).
  simpl emitted in *. destruct (user_played n) eqn:Hu.
  - simpl in Hnd. apply NoDup_cons in Hnd as [Hn Hnd].
    rewrite list_elem_of_In in Hn.
    apply IH; [exact Hnd|]. simpl step. rewrite noteEmit_world, Hu.
    destruct Hw as (H1 & H2 & H3). unfold hitsOnce. simpl.
    split_and!.
    + intros i Hi. destruct (H1 i (or_intror Hi)) as [Hnone Hzero].
      split; [|exact Hzero]. rewrite lookup_insert_ne; [exact Hnone|].
      intros <-. contradiction.
    + intros i c Hi. apply lookup_insert_Some in Hi as [[<- _] | [_ Hi]].
      * apply (H1 (id n)). now left.
      * now apply (H2 i c).
    + exact H3.
  - apply IH; [exact Hnd|]. apply step_hitsOnce; [exact Hw|].
    intros Hu'. congruence.
Qed.

(** No event of a session throws when the samplers of its notes are
    loaded. *)
Lemma step_normal pre e :
  (forall n, In (NoteEmit n) (pre ++ [e]) -> loaded samples (instrument n) = true) ->
  fst (step samples e (run samples pre initialWorld)) = Normal tt.
Proof.
  intros Hl. set (w := run samples pre initialWorld).
  assert (Hem : forall n, In n (emitted pre) -> loaded samples (instrument n) = true).
  { intros n Hn. apply Hl, in_app_iff. left. now apply emitted_In. }
  destruct e as [n | c | code |]; simpl.
  - unfold noteEmit. destruct (user_played n).
    + now rewrite createCircleNote_spec.
    + unfold playSound. rewrite Hl; [reflexivity|].
      apply in_app_iff. right. now left.
  - rewrite moveTick_result. destruct (circles w !! c) as [ci|] eqn:Hc; [|reflexivity].
    rewrite Hem, andb_false_r; [reflexivity|].
    pose proof (circles_run samples pre initialWorld) as Hcs. simpl in Hcs.
    rewrite <- Hcs. apply in_map_iff. exists ci. split; [reflexivity|].
    apply list_elem_of_In. eapply list_elem_of_lookup_2. exact Hc.
  - unfold keyDown. destruct (keyOfCode code) as [key|]; [|reflexivity].
    apply forEach_press_normal. intros n Hn. apply Hem.
    unfold w in Hn. rewrite lanes_run in Hn.
    apply in_app_iff in Hn as [Hn | Hn]; [now destruct key|].
    apply filter_In in Hn. tauto.
  - reflexivity.
Qed.
End Presses.

(** * The sound log *)

Lemma forEach_app {A : Type} (f : A -> Handler unit) l1 l2 w :
  forEach f (l1 ++ l2) w =
  match forEach f l1 w with
  | (Normal _, w1) => forEach f l2 w1
  | (Throw e, w1) => (Throw e, w1)
  end.
Proof.
  revert w. induction l1 as [| x l1 IH]; intros w; simpl; [reflexivity|].
  unfold bind. destruct (f x w) as [[[] | e] w1]; [apply IH | reflexivity].
Qed.

Section Log.
Variable samples : list string.

(** A press stops at the first note in the zone whose sampler is not
    loaded. *)
Lemma forEach_press_stops key l1 n l2 w :
  fst (forEach (handleKeyPress samples key) l1 w) = Normal tt ->
  inZone (snd (forEach (handleKeyPress samples key) l1 w)) n = true ->
  loaded samples (instrument n) = false ->
  forEach (handleKeyPress samples key) (l1 ++ n :: l2) w
  = (Throw TypeError, snd (forEach (handleKeyPress samples key) l1 w)).
Proof.
  intros H1 Hz Hl. rewrite forEach_app.
  destruct (forEach (handleKeyPress samples key) l1 w) as [[[] | e] w1];
    simpl in *; [|discriminate].
  unfold bind. now rewrite handleKeyPress_throw.
Qed.

Lemma step_autos e w :
  List.filter isAuto (audio (snd (step samples e w))) =
  List.filter isAuto (audio w) ++
  match e with
  | NoteEmit n =>
      if negb (user_played n) && loaded samples (instrument n)
      then [playbackFor Auto n] else []
  | _ => []
  end.
Proof.
  destruct e as [n | c | code |]; simpl.
  - rewrite noteEmit_world. destruct (user_played n); simpl; [now rewrite app_nil_r|].
    destruct (loaded samples (instrument n)); [|now rewrite app_nil_r].
    simpl. now rewrite List.filter_app.
  - rewrite moveTick_world. simpl. rewrite List.filter_app. f_equal.
    destruct (circles w !! c) as [ci|]; [|reflexivity].
    destruct (_ && _); reflexivity.
  - rewrite app_nil_r.
    apply (keyDown_invariant samples
             (fun w' => List.filter isAuto (audio w') = List.filter isAuto (audio w)));
      [|reflexivity].
    intros key n c ci w' Hw' _ _ _ _ _. unfold resolved. simpl.
    rewrite List.filter_app, Hw'. simpl. now rewrite app_nil_r.
  - now rewrite app_nil_r.
Qed.

Lemma run_autos trace : forall w,
  List.filter isAuto (audio (run samples trace w)) =
  List.filter isAuto (audio w) ++
  map (playbackFor Auto)
      (List.filter (fun n => negb (user_played n) && loaded samples (instrument n))
                   (scheduled trace)).
Proof.
  induction trace as [| e trace IH]; intros w; simpl run.
  - simpl. now rewrite app_nil_r.
  - rewrite IH, step_autos, <- app_assoc. f_equal.
    destruct e as [n | c | code |]; try reflexivity.
    simpl. destruct (negb (user_played n) && loaded samples (instrument n)); reflexivity.
Qed.

(** The duration of a playback follows from its note and its call site. *)
Lemma step_playbacks e w :
  Forall (fun p => p = playbackFor (cause p) (played p)) (audio w) ->
  Forall (fun p => p = playbackFor (cause p) (played p))
         (audio (snd (step samples e w))).
Proof.
  intros Hw. destruct e as [n | c | code |]; simpl.
  - rewrite noteEmit_world. destruct (user_played n); [exact Hw|].
    destruct (loaded samples (instrument n)); [|exact Hw].
    simpl. apply Forall_app. split; [exact Hw|]. now repeat constructor.
  - rewrite moveTick_world. simpl. apply Forall_app. split; [exact Hw|].
    destruct (circles w !! c) as [ci|]; [|constructor].
    destruct (_ && _); now repeat constructor.
  - apply (keyDown_invariant samples
             (fun w' => Forall (fun p => p = playbackFor (cause p) (played p))
                               (audio w'))); [|exact Hw].
    intros key n c ci w' Hw' _ _ _ _ _. unfold resolved. simpl.
    apply Forall_app. split; [exact Hw'|]. now repeat constructor.
  - exact Hw.
Qed.
End Log.

(** * The game clock *)

Lemma setClock_setClock s g s' g' w : setClock s g (setClock s' g' w) = setClock s g w.
Proof. reflexivity. Qed.


Section Clock.
Variable samples : list string.








End Clock.



Section PressAgain.
Variable samples : list string.

Lemma fallen_unfold note k :
  run samples (NoteEmit note :: repeat (MoveTick 0) k) initialWorld
  = fallen samples note k.
Proof. reflexivity. Qed.

(** A note that was hit has no entry any more: the next press of its key
    plays nothing. *)
Lemma hit_then_press_again code key note k :
  user_played note = true -> keyOfCode code = Some key ->
  laneOf note = Some key -> loaded samples (instrument note) = true ->
  (175 <= k <= 185)%nat ->
  audio (run samples
           (NoteEmit note :: repeat (MoveTick 0) k ++ [KeyDown code; KeyDown code])
           initialWorld)
  = [hitPlayback key note].
Proof.
  intros Hu Hcode Hlane Hl Hk.
  change (NoteEmit note :: ?a ++ ?b) with ((NoteEmit note :: a) ++ b).
  rewrite run_app. fold (fallen samples note k).
  rewrite fallen_world by (assumption || lia).
  simpl run.
  change (keyDown samples code) with (step samples (KeyDown code)).
  rewrite (press_oneCircle samples code key note) by
    (try assumption; apply isNoteInTargetZone_window; unfold targetZone; lia).
  cbn [snd]. cbn [step]. unfold keyDown. rewrite Hcode.
  change (activeNotes (resolved key note 0 (oneCircle note (2 * Z.of_nat k) true)))
    with (activeNotes (oneCircle note (2 * Z.of_nat k) true)).
  rewrite (lane_oneCircle note _ true key Hlane).
  rewrite forEach_no_hit; [reflexivity|].
  intros n [<- | []]. unfold inZone, position, resolved.
  cbn [userPlayedNotesMap with_map]. now rewrite lookup_delete_eq.
Qed.
End PressAgain.

(** * The claims *)

(** C1 (counterexample).  A key press that hits the note of Scenario A, at
    the middle of the target zone, plays the note and leaves [multiplier]
    at 0: a hit does not increase it. *)
Lemma C1_hit_leaves_multiplier :
  let w := fallen ["piano"] note5 180 in
  let w' := snd (step ["piano"] (KeyDown "KeyH") w) in
  audio w' = audio w ++ [hitPlayback KeyH note5] /\
  multiplier (state w) = #0%js /\ multiplier (state w') = #0%js /\
  flt (multiplier (state w)) (multiplier (state w')) = false.
Proof.
  assert (Hl : laneOf note5 = Some KeyH) by (apply laneOf_id_0; reflexivity).
  destruct (hit_in_zone ["piano"] "KeyH" KeyH note5 180 eq_refl eq_refl Hl eq_refl
              ltac:(lia)) as (Ha & Hs & Hs').
  split; [exact Ha|]. split; [exact (f_equal multiplier Hs)|].
  split; [exact (f_equal multiplier Hs')|].
  exact (eq_trans (f_equal2 flt (f_equal multiplier Hs) (f_equal multiplier Hs'))
                  (flt_irrefl _)).
Qed.

(** C1 (amended).  In every session every event (a hit, a miss, a spawn or
    a clock tick) finds [multiplier] and [score] at 0, the floor and the
    initial value, and leaves them there: a miss leaves [multiplier] at its
    floor and [score] unchanged, and a hit increases neither.  In any world
    only the clock tick writes the scoring state, and it writes the initial
    state. *)
Theorem C1_multiplier_and_score_stay_at_floor samples trace e w0 :
  let w := run samples trace initialWorld in
  let w' := snd (step samples e w) in
  multiplier (state w) = #0%js /\ score (state w) = #0%js /\
  multiplier (state w') = #0%js /\ score (state w') = #0%js /\
  state (snd (step samples e w0)) =
    match e with GameTick => initialState | _ => state w0 end.
Proof.
  intros w w'.
  assert (Hw : state w = initialState) by (apply run_state; reflexivity).
  assert (Hw' : state w' = initialState).
  { unfold w'. rewrite step_state, Hw. now destruct e. }
  rewrite Hw, Hw'. repeat split. apply step_state.
Qed.



(** C6 (counterexample).  For a track with no data row [main] schedules no
    event and starts from a world without notes; the clock tick that finds
    it so yields a state with [gameEnd = false]. *)
Lemma C6_empty_track_does_not_end :
  main header = Normal ([], initialWorld) /\
  gameEnd (state (snd (step [] GameTick initialWorld))) = false.
Proof. vm_compute. split; reflexivity. Qed.

(** C6 (amended).  Every clock tick, whatever notes are outstanding or
    scheduled, yields a state with [gameEnd = false] and hides the game-over
    banner; no session ever reaches [gameEnd = true]. *)
Theorem C6_game_never_ends samples trace w :
  gameEnd (state (snd (step samples GameTick w))) = false /\
  gameover (snd (step samples GameTick w)) = Some false /\
  gameEnd (state (run samples trace initialWorld)) = false.
Proof.
  repeat split. now rewrite run_state.
Qed.

(** C2.  The note of Scenario A is hit at the middle of the target zone;
    its fall is not cancelled, and twenty positions later, at the bottom of
    the canvas, the playback of a missed note is fired for it. *)
Theorem C2_miss_playback_after_hit :
  let trace := NoteEmit note5 :: repeat (MoveTick 0) 180 ++ [KeyDown "KeyH"]
               ++ repeat (MoveTick 0) 20 in
  let w := run ["piano"] trace initialWorld in
  audio w = [hitPlayback KeyH note5;
             mkPlayback Miss note5 (fallbackDuration note5)] /\
  outcomes w = [HitOutcome KeyH 0; MissOutcome (Some KeyH) 0].
Proof.
  assert (Hl : laneOf note5 = Some KeyH) by (apply laneOf_id_0; reflexivity).
  assert (Ht : truthy (fallbackDuration note5) = true).
  { change (fallbackDuration note5) with (RNG.scale (RNG.hash (#11 / #2)%js)).
    rewrite eleven_halves, scale_hash_SMALL by (vm_compute; reflexivity || discriminate).
    apply truthy_SMALL. vm_compute. discriminate. }
  exact (hit_then_miss ["piano"] "KeyH" KeyH note5 180 eq_refl eq_refl Hl eq_refl
           ltac:(lia) Ht).
Qed.

(** C3.  The circle of the note of Scenario A (start 5 s) is created 1500 ms
    after [main], that is 3500 ms before the start of the note, its position
    is 360 on the 180th emission and on no other, and that emission is due
    3300 ms after [main], 1700 ms before the start of the note.  A note the
    user does not play is delayed by exactly its start time. *)
Theorem C3_target_zone_reached_early note k :
  delayOf note5 = #1500%js /\
  (startTime note5 * #1000)%js = #5000%js /\
  (positionAfter k = targetZone <-> k = 180%nat) /\
  position (fallen ["piano"] note5 180) note5 = Some targetZone /\
  emissionTime note5 180 = #3300%js /\
  delayOf note = if user_played note then (startTime note * #1000 - #3500)%js
                 else (startTime note * #1000)%js.
Proof.
  assert (E1 : (startTime note5 * #1000)%js = #5000%js).
  { change (startTime note5) with #5%js.
    rewrite !num_small, fmul_int, fl_int_small by (vm_compute; reflexivity || discriminate).
    rewrite round_units_int_small by (vm_compute; reflexivity). reflexivity. }
  assert (E2 : delayOf note5 = #1500%js).
  { change (delayOf note5) with (startTime note5 * #1000 - #3500)%js.
    rewrite E1, !num_small, fsub_ints, fl_int_small
      by (vm_compute; reflexivity || discriminate).
    rewrite round_units_int_small by (vm_compute; reflexivity). reflexivity. }
  split; [exact E2|]. split; [exact E1|].
  split; [apply positionAfter_targetZone|]. split.
  - rewrite fallen_world by (reflexivity || lia). apply position_oneCircle.
  - split; [|reflexivity]. unfold emissionTime. rewrite E2.
    rewrite (timerDelay_num 1500 eq_refl).
    change ((0 <=? 1500) && (1500 <=? 2147483647)) with true. cbv iota.
    change (10 * Z.of_nat 180) with 1800.
    rewrite !num_small, fadd_int, fl_int_small
      by (vm_compute; reflexivity || discriminate).
    rewrite round_units_int_small by (vm_compute; reflexivity). reflexivity.
Qed.

(** C5 (counterexample).  Two pending notes of lane H are both at the middle
    of the target zone when H is pressed; the sampler of the first one is
    not loaded, the call on it throws, and the press resolves neither: the
    world is left as it was. *)
Lemma C5_press_stopped_by_missing_sampler :
  let w := twoInZone ["piano"] kazoo0 piano2 in
  lane KeyH (activeNotes w) = [kazoo0; piano2] /\
  position w kazoo0 = Some targetZone /\ position w piano2 = Some targetZone /\
  step ["piano"] (KeyDown "KeyH") w = (Throw TypeError, w).
Proof.
  assert (L0 : laneOf kazoo0 = Some KeyH) by (apply laneOf_id_0; reflexivity).
  assert (L2 : laneOf piano2 = Some KeyH) by (apply laneOf_id_2; reflexivity).
  cbv zeta. unfold twoInZone.
  rewrite two_fallen_world by (reflexivity || lia). rewrite L0, L2.
  set (w := mkWorld _ _ _ _ _ _).
  assert (P0 : position w kazoo0 = Some targetZone) by reflexivity.
  assert (P2 : position w piano2 = Some targetZone) by reflexivity.
  split; [reflexivity|]. split; [exact P0|]. split; [exact P2|].
  change (step ["piano"] (KeyDown "KeyH") w)
    with (bind (handleKeyPress ["piano"] KeyH kazoo0)
               (fun _ => forEach (handleKeyPress ["piano"] KeyH) [piano2]) w).
  unfold bind. rewrite handleKeyPress_throw; [reflexivity | | reflexivity].
  unfold inZone. rewrite P0. reflexivity.
Qed.

(** C5 (amended).  On a key press for a lane whose pending notes have
    distinct ids, if the sampler of every pending note that is within the
    target zone (|position - 360| <= 10) is loaded, then each of these notes
    is resolved as a hit, in lane order and possibly several at once: it is
    played with its own duration, its circle is removed and its entry
    deleted.  A press that finds no pending note of the lane within the
    zone changes nothing and is no error, and so is a key that is not one
    of the four. *)
Theorem C5_press_resolves_notes_in_zone samples code key w :
  keyOfCode code = Some key ->
  let pending := lane key (activeNotes w) in
  NoDup (map id pending) ->
  (forall n, In n pending -> inZone w n = true ->
     loaded samples (instrument n) = true) ->
  (forall n, inZone w n = true <->
     exists y, position w n = Some y /\ Z.abs (y - targetZone) <= 10) /\
  (exists w',
     step samples (KeyDown code) w = (Normal tt, w') /\
     audio w' = audio w ++ map (hitPlayback key) (List.filter (inZone w) pending) /\
     (forall n, In n pending -> inZone w n = true ->
        userPlayedNotesMap w' !! id n = None /\
        exists c, userPlayedNotesMap w !! id n = Some c /\
                  attached <$> circles w' !! c = Some false)) /\
  ((forall n, In n pending -> inZone w n = false) ->
     step samples (KeyDown code) w = (Normal tt, w)) /\
  (forall other, keyOfCode other = None ->
     step samples (KeyDown other) w = (Normal tt, w)).
Proof.
  intros Hkey pending Hnd Hl. split_and!.
  - intros n. unfold inZone. destruct (position w n) as [y|].
    + rewrite isNoteInTargetZone_window. split; [eauto|].
      intros (y' & [= <-] & Hy). exact Hy.
    + split; [discriminate | intros (y & [=] & _)].
  - destruct (forEach_hits samples key pending w Hnd Hl)
      as (w' & Hs & Ha & Hres & _).
    exists w'. simpl. unfold keyDown. rewrite Hkey. auto.
  - intros Hno. simpl. unfold keyDown. rewrite Hkey. now apply forEach_no_hit.
  - intros other Ho. simpl. unfold keyDown. now rewrite Ho.
Qed.

(** C5 (witness).  Two loaded notes of lane H in the zone, one press. *)
Lemma C5_press_resolves_two_notes :
  exists w',
    step ["piano"] (KeyDown "KeyH") (twoInZone ["piano"] piano0 piano2)
      = (Normal tt, w') /\
    audio w' = [hitPlayback KeyH piano0; hitPlayback KeyH piano2] /\
    userPlayedNotesMap w' !! 0 = None /\ userPlayedNotesMap w' !! 2 = None.
Proof.
  assert (L0 : laneOf piano0 = Some KeyH) by (apply laneOf_id_0; reflexivity).
  assert (L2 : laneOf piano2 = Some KeyH) by (apply laneOf_id_2; reflexivity).
  assert (Hw : twoInZone ["piano"] piano0 piano2 =
               mkWorld [mkCircle piano0 360 true 360 false;
                        mkCircle piano2 360 true 360 false]
                       (<[2 := 1%nat]> {[ 0 := 0%nat ]})
                       (mkLanes [piano0; piano2] [] [] []) initialState None []).
  { unfold twoInZone. rewrite two_fallen_world by (reflexivity || lia).
    rewrite L0, L2. reflexivity. }
  rewrite Hw. set (w := mkWorld _ _ _ _ _ _).
  assert (Hz0 : inZone w piano0 = true) by reflexivity.
  assert (Hz2 : inZone w piano2 = true) by reflexivity.
  destruct (C5_press_resolves_notes_in_zone ["piano"] "KeyH" KeyH w)
    as (_ & (w' & Hs & Ha & Hres) & _).
  - reflexivity.
  - change (NoDup [0; 2]).
    repeat (apply NoDup_cons_2; [rewrite list_elem_of_In; simpl; intuition lia|]).
    apply NoDup_nil_2.
  - intros n [<- | [<- | []]] _; reflexivity.
  - exists w'. split; [exact Hs|]. split.
    + rewrite Ha. change (lane KeyH (activeNotes w)) with [piano0; piano2].
      unfold List.filter. rewrite Hz0, Hz2. reflexivity.
    + destruct (Hres piano0 (or_introl eq_refl) Hz0) as [H0 _].
      destruct (Hres piano2 (or_intror (or_introl eq_refl)) Hz2) as [H2 _].
      split; [exact H0 | exact H2].
Defined.






(** C9 (counterexample).  No integer seed has a scaled hash of exactly 1:
    the product with 1103515245 is exact below 2^53, where the hash is
    2^31 - 1 for no seed, and is rounded to an even integer beyond. *)
Lemma C9_no_integer_seed_scales_to_1 :
  ~ exists seed, integer seed /\ RNG.scale (RNG.hash seed) = #1%js.
Proof. exact no_integer_seed_scales_to_1. Qed.

(** C9 (amended).  For every integer seed from 0 to 2^53 - 1, hence for the
    id of every loaded note, the index computed by [getCx] is 0, 1, 2 or 3
    and [getCx] returns 20, 40, 60 or 80.  For the seed -1 [getCx] returns
    [undefined]; a note for which it does is appended to no lane and no
    session ever resolves it by a key press. *)
Theorem C9_lanes_of_integer_seeds :
  (forall s, 0 <= s < 2 ^ 53 ->
     exists i, 0 <= i <= 3 /\ getCx #s = Some (20 + 20 * i)) /\
  getCx #(-1) = None /\
  (forall samples note trace w key d,
     getCx #(id note) = None ->
     activeNotes (snd (createCircleNote note w)) = activeNotes w /\
     ~ In (mkPlayback (Hit key) note d) (audio (run samples trace initialWorld))).
Proof.
  split; [exact getCx_small_seed|]. split; [exact getCx_negative_seed|].
  intros samples note trace w key d Hcx.
  assert (Hlane : laneOf note = None) by (unfold laneOf; now rewrite Hcx).
  split.
  - now rewrite createCircleNote_spec, Hlane.
  - intros Hin.
    destruct (assigned_run samples trace initialWorld assigned_initial) as [_ Hhits].
    specialize (Hhits _ key Hin eq_refl). simpl in Hhits. congruence.
Qed.

(** C9 (witness).  The seed 7, and a note with id -1. *)
Lemma C9_seed_7_and_note_minus_1 :
  (exists i, 0 <= i <= 3 /\ getCx #7 = Some (20 + 20 * i)) /\
  activeNotes (snd (createCircleNote noteMinus1 initialWorld))
    = activeNotes initialWorld.
Proof.
  destruct C9_lanes_of_integer_seeds as (H1 & _ & H3). split.
  - apply (H1 7). vm_compute. split; [discriminate | reflexivity].
  - apply (H3 [] noteMinus1 [] initialWorld KeyH #0%js). exact getCx_negative_seed.
Defined.




(** * The generator on the ids of a track *)

(** Below 2^53 the multiplication and the addition of [RNG.hash] are exact. *)
Lemma hashZ_exact s :
  0 <= s -> 1103515245 * s + 12345 < 2 ^ 53 ->
  hashZ s = (1103515245 * s + 12345) mod 2147483648.
Proof.
  intros Hs Hb. unfold hashZ.
  rewrite (round_units_int_small (1103515245 * s)) by lia.
  rewrite round_units_int_small by lia.
  apply Z.rem_mod_nonneg; lia.
Qed.

(** X1.  For an integer seed [s >= 0] with [a * s + c < 2^53], [RNG.hash]
    is the step of the linear congruential generator in exact arithmetic:
    [(a * s + c) mod 2^31]. *)
Theorem X1_hash_is_the_lcg_step s :
  0 <= s -> 1103515245 * s + 12345 < 2 ^ 53 ->
  RNG.hash #s = #((1103515245 * s + 12345) mod 2147483648)%js.
Proof.
  intros Hs Hb.
  pose proof (Z.mod_pos_bound (1103515245 * s + 12345) 2147483648 ltac:(lia)) as Hm.
  rewrite !num_small by lia.
  rewrite hash_integer_finite, hashZ_exact by lia. reflexivity.
Qed.

Lemma X1_hash_of_seed_7 :
  RNG.hash #7 = #((1103515245 * 7 + 12345) mod 2147483648)%js.
Proof. apply (X1_hash_is_the_lcg_step 7); vm_compute; reflexivity || discriminate. Defined.

(** X2.  For every seed between 0 and 2^53, integer or not, the hash is a
    finite number in [0, 2^31). *)
Theorem X2_hash_range e :
  0 <= e <= 2 ^ 53 * ONE ->
  exists x, RNG.hash (Finite e) = Finite x /\ 0 <= x < 2147483648 * ONE.
Proof. exact (hash_nonneg e). Qed.

Lemma X2_hash_of_one_half :
  exists x, RNG.hash (Finite (ONE / 2)) = Finite x /\ 0 <= x < 2147483648 * ONE.
Proof.
  apply (X2_hash_range (ONE / 2)).
  vm_compute. split; intros ?; discriminate.
Defined.

(** X3.  [RNG.scale] is monotone on the numbers between -2^31 and 2^31, and
    it maps 0 to -1 and 2^31 - 1 to 1. *)
Theorem X3_scale_is_monotone x y :
  - (2147483648 * ONE) <= x -> x <= y -> y <= 2147483648 * ONE ->
  fle (RNG.scale (Finite x)) (RNG.scale (Finite y)) = true /\
  RNG.scale #0 = #(-1)%js /\ RNG.scale #2147483647 = #1%js.
Proof.
  intros Hx Hxy Hy. split_and!.
  - destruct (scale_finite x) as [-> _]; [lia|].
    destruct (scale_finite y) as [-> _]; [lia|].
    apply Z.leb_le, scaleU_mono, Hxy.
  - rewrite !num_small by (vm_compute; reflexivity). pose proof ONE_pos.
    destruct (scale_finite (0 * ONE)) as [-> _]; [lia|].
    rewrite Z.mul_0_l, scaleU_0. f_equal; ring.
  - rewrite !num_small by (vm_compute; reflexivity). pose proof ONE_pos.
    destruct (scale_finite (2147483647 * ONE)) as [-> _]; [lia|].
    rewrite scaleU_SMALL by (vm_compute; reflexivity).
    rewrite ONE_SMALL. f_equal; ring.
Qed.

Lemma X3_scale_of_1_and_2 :
  fle (RNG.scale (Finite (1 * ONE))) (RNG.scale (Finite (2 * ONE))) = true.
Proof.
  assert (H : 1 * ONE <= 2 * ONE) by (apply Z.mul_le_mono_nonneg_r; [apply Z.lt_le_incl, ONE_pos | lia]).
  refine (proj1 (X3_scale_is_monotone (1 * ONE) (2 * ONE) _ H _));
    vm_compute; intros ?; discriminate.
Defined.

(** X4.  For an integer seed [s >= 0] with [a * s + c < 2^53], hence for
    the id of every note of a track, [getCx] returns the entry of
    [cxValues] selected by the two high bits of the 31-bit hash. *)
Theorem X4_getCx_takes_the_high_bits s :
  0 <= s -> 1103515245 * s + 12345 < 2 ^ 53 ->
  getCx #s
  = nth_error cxValues
      (Z.to_nat (((1103515245 * s + 12345) mod 2147483648) / 536870912)).
Proof.
  intros Hs Hb. rewrite getCx_lane, hashZ_exact by lia.
  pose proof (Z.mod_pos_bound (1103515245 * s + 12345) 2147483648 ltac:(lia)) as Hm.
  set (q := _ / 536870912).
  assert (Hq : 0 <= q <= 3).
  { unfold q. split; [apply Z.div_pos; lia|].
    apply Z.lt_succ_r, Z.div_lt_upper_bound; lia. }
  clearbody q.
  assert (Hc : q = 0 \/ q = 1 \/ q = 2 \/ q = 3) by lia.
  destruct Hc as [-> | [-> | [-> | ->]]]; reflexivity.
Qed.

Lemma X4_getCx_of_seed_7 :
  getCx #7
  = nth_error cxValues
      (Z.to_nat (((1103515245 * 7 + 12345) mod 2147483648) / 536870912)).
Proof.
  apply (X4_getCx_takes_the_high_bits 7); vm_compute; reflexivity || discriminate.
Defined.

(** The index of [getCx] is negative for a negative integer hash. *)
Lemma lane_of_negative_hash h :
  - 2147483648 < h < 0 -> indexU (scaleU (h * ONE)) / ONE < 0.
Proof.
  intros Hh. pose proof ONE_pos as HO.
  assert (H1 : indexU (scaleU (h * ONE)) <= indexU (scaleU (-1 * ONE)))
    by (apply indexU_mono, scaleU_mono, Z.mul_le_mono_nonneg_r; lia).
  assert (H2 : indexU (scaleU (-1 * ONE)) / ONE = -1)
    by (rewrite index_SMALL by (vm_compute; reflexivity); vm_compute; reflexivity).
  pose proof (Z.div_le_mono _ _ ONE HO H1) as H3. rewrite H2 in H3.
  eapply Z.le_lt_trans; [exact H3 | reflexivity].
Qed.

(** X5.  For a negative integer seed [s] with [a * s + c > -2^53] the
    remainder taken by [RNG.hash] is not positive, and unless it is 0 the
    index computed by [getCx] is negative and [getCx] returns [undefined]. *)
Theorem X5_getCx_of_negative_seeds s :
  s < 0 -> - 2 ^ 53 < 1103515245 * s + 12345 ->
  Z.rem (1103515245 * s + 12345) 2147483648 <> 0 ->
  getCx #s = None.
Proof.
  intros Hs Hb Hr. pose proof ONE_pos as HO.
  assert (Hh : hashZ s = Z.rem (1103515245 * s + 12345) 2147483648).
  { unfold hashZ. rewrite (round_units_int_small (1103515245 * s)) by lia.
    now rewrite round_units_int_small by lia. }
  pose proof (Z.rem_bound_pos_neg (1103515245 * s + 12345) 2147483648
                ltac:(lia) ltac:(lia)) as Hn.
  pose proof (Z.rem_bound_abs (1103515245 * s + 12345) 2147483648 ltac:(lia)) as Ha.
  rewrite num_small by lia.
  rewrite (getCx_finite _ _ (hash_integer_finite s ltac:(lia))) by (rewrite Hh; nia).
  apply array_get_negative.
  pose proof (lane_of_negative_hash (hashZ s) ltac:(rewrite Hh; lia)). nia.
Qed.

Lemma X5_getCx_of_seed_minus_7 : getCx #(-7) = None.
Proof.
  apply (X5_getCx_of_negative_seeds (-7)); vm_compute; reflexivity || discriminate.
Defined.

(** * The schedule for whole seconds *)






(** * Rows and fields *)

Lemma loadCSV_lines first lines :
  Forall (fun line => contains LF line = false) (first :: lines) ->
  loadCSV (unlines (first :: lines))
  = mapi_throw parseRow 0
      (List.filter (fun line => (0 <? String.length line)%nat) lines).
Proof. intros H. unfold loadCSV. now rewrite split_unlines. Qed.

Lemma split_join_cons sep field next rest :
  contains sep field = false ->
  split sep (join sep (field :: next :: rest)) = field :: split sep (join sep (next :: rest)).
Proof. intros H. change (join sep (field :: next :: rest))
    with (field ++ String sep (join sep (next :: rest)))%string.
  now apply split_line.
Qed.

Lemma split_join_head sep field rest :
  contains sep field = false ->
  exists pieces, split sep (join sep (field :: rest)) = field :: pieces.
Proof.
  intros H. destruct rest as [| next rest].
  - exists []. now apply split_none.
  - eexists. now apply split_join_cons.
Qed.

(** X7.  [loadCSV] depends on the lines after the first that are not empty
    and on nothing else: the first line, whatever it holds, and the empty
    lines, a final line feed among them, yield no note and shift no id. *)
Theorem X7_loadCSV_skips_the_first_and_the_empty_lines first lines first' lines' :
  Forall (fun line => contains LF line = false) (first :: lines) ->
  Forall (fun line => contains LF line = false) (first' :: lines') ->
  List.filter (fun line => (0 <? String.length line)%nat) lines
  = List.filter (fun line => (0 <? String.length line)%nat) lines' ->
  loadCSV (unlines (first :: lines)) = loadCSV (unlines (first' :: lines')).
Proof. intros H H' E. now rewrite !loadCSV_lines, E by assumption. Qed.

Lemma X7_track_with_and_without_empty_lines :
  loadCSV (unlines [header; "True,piano,100,60,5,5.5"])
  = loadCSV (unlines ["True,kazoo,1,2,3,4"; ""; "True,piano,100,60,5,5.5"; ""]).
Proof.
  apply X7_loadCSV_skips_the_first_and_the_empty_lines;
    [repeat constructor | repeat constructor | reflexivity].
Defined.

(** X8.  A row of six fields or more, the first six without a comma, is
    read field by field: the first two are trimmed, [user_played] holds
    exactly when the first is [True], the velocity is divided by 127, and
    the fields after the sixth are ignored. *)
Theorem X8_parseRow_reads_six_fields index f0 f1 f2 f3 f4 f5 more :
  Forall (fun field => contains comma field = false) [f0; f1; f2; f3; f4; f5] ->
  parseRow index (join comma (f0 :: f1 :: f2 :: f3 :: f4 :: f5 :: more))
  = Normal {| id := Z.of_nat index;
              user_played := String.eqb (trim f0) "True";
              instrument := trim f1;
              velocity := (StringToNumber f2 / #127)%js;
              pitch := StringToNumber f3;
              startTime := StringToNumber f4;
              endTime := StringToNumber f5 |}.
Proof.
  intros H.
  inversion H as [| ? ? H0 H']; subst; clear H.
  inversion H' as [| ? ? H1 H'']; subst; clear H'.
  inversion H'' as [| ? ? H2 H']; subst; clear H''.
  inversion H' as [| ? ? H3 H'']; subst; clear H'.
  inversion H'' as [| ? ? H4 H']; subst; clear H''.
  inversion H' as [| ? ? H5 _]; subst; clear H'.
  unfold parseRow.
  rewrite !split_join_cons by assumption.
  destruct (split_join_head comma f5 more H5) as (pieces & ->).
  reflexivity.
Qed.

Lemma X8_row_of_seven_fields :
  parseRow 3 (join comma ["True"; " piano "; "100"; "60"; "5.0"; "5.5"; "ignored"])
  = Normal {| id := 3;
              user_played := String.eqb (trim "True") "True";
              instrument := trim " piano ";
              velocity := (StringToNumber "100" / #127)%js;
              pitch := StringToNumber "60";
              startTime := StringToNumber "5.0";
              endTime := StringToNumber "5.5" |}.
Proof.
  apply (X8_parseRow_reads_six_fields 3 "True" " piano " "100" "60" "5.0" "5.5"
           ["ignored"]).
  repeat constructor.
Defined.

(** * Sessions: lanes, circles and sounds *)

(** X9.  After any session the notes of a lane are the emitted notes the
    user plays whose id hashes to the lane, each as often as it was
    emitted and in that order: no hit, miss or tick removes a note from
    [activeNotes]. *)
Theorem X9_lanes_hold_the_emitted_notes samples trace key :
  lane key (activeNotes (run samples trace initialWorld))
  = List.filter (inLane key) (emitted trace).
Proof. rewrite lanes_run. now destruct key. Qed.

(** X10.  After any session there is one circle for each emitted note the
    user plays, in the order of emission, a removed circle still being
    moved by its interval or complete; notes the user does not play get no
    circle. *)
Theorem X10_one_circle_per_emitted_note samples trace :
  map circle_note (circles (run samples trace initialWorld)) = emitted trace /\
  length (circles (run samples trace initialWorld)) = length (emitted trace).
Proof.
  pose proof (circles_run samples trace initialWorld) as H. simpl in H.
  split; [exact H|]. now rewrite <- H, length_map.
Qed.

(** X11.  In any session every circle is at an even position between 0
    and the height of the canvas, a circle at the bottom is removed, and
    the accumulator of its [scan] exceeds the height by 2 at most. *)
Theorem X11_circles_stay_on_the_canvas samples trace :
  Forall (fun ci =>
            0 <= cy ci <= Viewport.CANVAS_HEIGHT /\ Z.even (cy ci) = true /\
            (cy ci = Viewport.CANVAS_HEIGHT -> attached ci = false) /\
            cy ci <= accum_Y ci <= Viewport.CANVAS_HEIGHT + 2)
         (circles (run samples trace initialWorld)).
Proof.
  assert (H : Forall circleOk (circles (run samples trace initialWorld))).
  { apply (run_invariant samples (fun w => Forall circleOk (circles w))).
    - intros e w. apply step_circles_ok.
    - constructor. }
  eapply Forall_impl; [exact H|].
  intros ci (Hr & He & Hb & Hc). split_and!; try assumption;
    destruct (completed ci); lia.
Qed.

(** X12.  In any session an entry of [userPlayedNotesMap] for an id is a
    circle that exists and was made for an emitted note with that id. *)
Theorem X12_map_entries_are_circles_of_their_notes samples trace i c :
  userPlayedNotesMap (run samples trace initialWorld) !! i = Some c ->
  exists ci, circles (run samples trace initialWorld) !! c = Some ci /\
             id (circle_note ci) = i /\ In (circle_note ci) (emitted trace).
Proof.
  intros H.
  assert (Hv : mapValid (run samples trace initialWorld)).
  { apply (run_invariant samples mapValid).
    - intros e w. apply step_mapValid.
    - intros i' c' H'. simpl in H'. now rewrite lookup_empty in H'. }
  destruct (Hv i c H) as (ci & Hc & Hi). exists ci. split_and!; try assumption.
  pose proof (circles_run samples trace initialWorld) as E. simpl in E.
  rewrite <- E. apply in_map, list_elem_of_In. eapply list_elem_of_lookup_2. exact Hc.
Qed.

Lemma X12_entry_of_the_first_note :
  exists ci, circles (run ["piano"] [NoteEmit note5] initialWorld) !! 0%nat = Some ci /\
             id (circle_note ci) = 0 /\ In (circle_note ci) (emitted [NoteEmit note5]).
Proof.
  apply (X12_map_entries_are_circles_of_their_notes ["piano"] [NoteEmit note5] 0 0%nat).
  change (run ["piano"] [NoteEmit note5] initialWorld) with (fallen ["piano"] note5 0).
  rewrite fallen_world by (reflexivity || lia). reflexivity.
Defined.

(** X13.  The circle of a note the user plays whose sampler is loaded, if
    no key is pressed: the note is played as a miss on the 200th emission
    of the interval and never again, however long the interval goes on;
    from then on the circle is removed and its position stays at the
    height of the canvas. *)
Theorem X13_missed_note_is_played_once samples note k :
  user_played note = true -> loaded samples (instrument note) = true ->
  audio (fallen samples note k) = (if (k <? 200)%nat then [] else [missPlayback note]) /\
  attached <$> circles (fallen samples note k) !! 0%nat = Some (k <? 200)%nat /\
  cy <$> circles (fallen samples note k) !! 0%nat
  = Some (Z.min (2 * Z.of_nat k) Viewport.CANVAS_HEIGHT).
Proof.
  intros Hu Hl. rewrite fallen_k_world by assumption. rewrite Hl, andb_true_r.
  cbn [audio circles]. split_and!.
  - destruct (Nat.leb_spec 200 k), (Nat.ltb_spec k 200); reflexivity || lia.
  - change ([?x] !! 0%nat) with (Some x). cbn [fmap option_fmap option_map].
    now rewrite iter_advance_attached.
  - change ([?x] !! 0%nat) with (Some x). cbn [fmap option_fmap option_map].
    now rewrite iter_advance_cy.
Qed.

Lemma X13_after_250_emissions :
  audio (fallen ["piano"] note5 250) = [missPlayback note5].
Proof.
  exact (proj1 (X13_missed_note_is_played_once ["piano"] note5 250 eq_refl eq_refl)).
Defined.

(** X14.  The circle of a note the user plays whose sampler is not loaded:
    the 200th emission of the interval removes the circle and then throws
    a TypeError, and the note is never played. *)
Theorem X14_bottom_without_sampler_throws samples note :
  user_played note = true -> loaded samples (instrument note) = false ->
  step samples (MoveTick 0) (fallen samples note 199)
  = (Throw TypeError, fallen samples note 200) /\
  attached <$> circles (fallen samples note 200) !! 0%nat = Some false /\
  forall k, audio (fallen samples note k) = [].
Proof.
  intros Hu Hl. split_and!.
  - rewrite (fallen_succ samples note 199).
    rewrite (surjective_pairing (step samples (MoveTick 0) (fallen samples note 199))) at 1.
    f_equal. change (step samples (MoveTick 0)) with (moveTick samples 0).
    rewrite moveTick_result, fallen_k_world by assumption.
    cbn [circles]. change ([?x] !! 0%nat) with (Some x). cbv beta iota.
    now rewrite iter_advance_bottom, iter_advance_note, Hl.
  - rewrite fallen_k_world by assumption. cbn [circles].
    change ([?x] !! 0%nat) with (Some x). cbn [fmap option_fmap option_map].
    now rewrite iter_advance_attached.
  - intros k. rewrite fallen_k_world by assumption. cbn [audio].
    now rewrite Hl, andb_false_r.
Qed.

Lemma X14_kazoo_at_the_bottom :
  step ["piano"] (MoveTick 0) (fallen ["piano"] kazoo0 199)
  = (Throw TypeError, fallen ["piano"] kazoo0 200).
Proof.
  exact (proj1 (X14_bottom_without_sampler_throws ["piano"] kazoo0 eq_refl eq_refl)).
Defined.

(** X15.  A key press finds the circle of a note within the target zone
    exactly from the 175th to the 185th emission of its interval, that is
    for 110 ms; after a miss the entry of the note stays in the map with
    the circle out of the zone. *)
Theorem X15_hit_window samples note k :
  user_played note = true ->
  (inZone (fallen samples note k) note = true <-> (175 <= k <= 185)%nat) /\
  position (fallen samples note k) note
  = Some (Z.min (2 * Z.of_nat k) Viewport.CANVAS_HEIGHT).
Proof.
  intros Hu.
  assert (Hp : position (fallen samples note k) note
               = Some (Z.min (2 * Z.of_nat k) Viewport.CANVAS_HEIGHT)).
  { rewrite fallen_k_world by assumption. unfold position.
    cbn [userPlayedNotesMap circles]. rewrite lookup_singleton_eq.
    change ([?x] !! 0%nat) with (Some x). cbn [fmap option_fmap option_map].
    now rewrite iter_advance_cy. }
  split; [|exact Hp]. unfold inZone. rewrite Hp, isNoteInTargetZone_window.
  unfold targetZone, Viewport.CANVAS_HEIGHT. lia.
Qed.

Lemma X15_zone_at_the_180th_emission :
  inZone (fallen ["piano"] note5 180) note5 = true <-> (175 <= 180 <= 185)%nat.
Proof. exact (proj1 (X15_hit_window ["piano"] note5 180 eq_refl)). Defined.

(** X16.  For every note the user plays, whatever its lane, and every
    emission of the window on which its key is pressed: the hit plays the
    note with its own duration, the circle keeps falling, and the 200th
    emission plays the note again, as a miss. *)
Theorem X16_hit_does_not_cancel_the_fall samples code key note k :
  user_played note = true -> keyOfCode code = Some key ->
  laneOf note = Some key -> loaded samples (instrument note) = true ->
  (175 <= k <= 185)%nat ->
  audio (run samples
           (NoteEmit note :: repeat (MoveTick 0) k ++ [KeyDown code]
            ++ repeat (MoveTick 0) (200 - k))
           initialWorld)
  = [hitPlayback key note; missPlayback note].
Proof. exact (hit_then_bottom samples code key note k). Qed.

Lemma X16_hit_on_the_175th_emission :
  audio (run ["piano"]
           (NoteEmit note5 :: repeat (MoveTick 0) 175 ++ [KeyDown "KeyH"]
            ++ repeat (MoveTick 0) (200 - 175))
           initialWorld)
  = [hitPlayback KeyH note5; missPlayback note5].
Proof.
  exact (X16_hit_does_not_cancel_the_fall ["piano"] "KeyH" KeyH note5 175
           eq_refl eq_refl (laneOf_id_0 note5 eq_refl) eq_refl
           ltac:(lia)).
Defined.

(** X17.  Under the conditions of a press that resolves the notes in the
    zone (distinct ids in the lane, loaded samplers), the press completes
    normally and the same key pressed again at once changes nothing: the
    resolved notes have no entry any more and the others have not moved. *)
Theorem X17_second_press_changes_nothing samples code key w :
  keyOfCode code = Some key ->
  NoDup (map id (lane key (activeNotes w))) ->
  (forall n, In n (lane key (activeNotes w)) -> inZone w n = true ->
     loaded samples (instrument n) = true) ->
  let w' := snd (step samples (KeyDown code) w) in
  fst (step samples (KeyDown code) w) = Normal tt /\
  step samples (KeyDown code) w' = (Normal tt, w').
Proof.
  intros Hkey Hnd Hl. simpl step. unfold keyDown. rewrite Hkey.
  destruct (press_twice samples key (lane key (activeNotes w)) w Hnd Hl)
    as (H1 & H2 & H3).
  cbv zeta. split; [exact H1|]. rewrite H2. exact H3.
Qed.

Lemma X17_two_presses_on_a_note_in_the_zone :
  let w' := snd (step ["piano"] (KeyDown "KeyH") (oneCircle note5 360 true)) in
  fst (step ["piano"] (KeyDown "KeyH") (oneCircle note5 360 true)) = Normal tt /\
  step ["piano"] (KeyDown "KeyH") w' = (Normal tt, w').
Proof.
  assert (Hlane : lane KeyH (activeNotes (oneCircle note5 360 true)) = [note5])
    by (apply lane_oneCircle, laneOf_id_0; reflexivity).
  apply (X17_second_press_changes_nothing ["piano"] "KeyH" KeyH (oneCircle note5 360 true)).
  - reflexivity.
  - rewrite Hlane. change (NoDup [0]).
    apply NoDup_cons_2; [rewrite list_elem_of_In; simpl; tauto | apply NoDup_nil_2].
  - rewrite Hlane. intros n [<- | []] _. reflexivity.
Defined.

(** X18.  In any session every note that is played, automatically, as a
    hit or as a miss, has a loaded sampler. *)
Theorem X18_only_loaded_samplers_play samples trace :
  Forall (fun p => loaded samples (instrument (played p)) = true)
         (audio (run samples trace initialWorld)).
Proof.
  apply (run_invariant samples
           (fun w => Forall (fun p => loaded samples (instrument (played p)) = true)
                            (audio w))).
  - intros e w. apply step_audio_loaded.
  - constructor.
Qed.

(** X19.  If the sampler of every note emitted so far is loaded, the next
    event, whatever it is, completes without an exception. *)
Theorem X19_no_exception_with_loaded_samplers samples pre e :
  (forall n, In (NoteEmit n) (pre ++ [e]) -> loaded samples (instrument n) = true) ->
  fst (step samples e (run samples pre initialWorld)) = Normal tt.
Proof. exact (step_normal samples pre e). Qed.

(** X19 (witness).  The key of the note of Scenario A is pressed when its
    circle is in the middle of the target zone: the press calls
    [playSound] on the note and completes. *)
Lemma X19_press_after_a_piano_note :
  let pre := NoteEmit note5 :: repeat (MoveTick 0) 180 in
  inZone (run ["piano"] pre initialWorld) note5 = true /\
  fst (step ["piano"] (KeyDown "KeyH") (run ["piano"] pre initialWorld)) = Normal tt.
Proof.
  cbv zeta. split.
  - rewrite (fallen_unfold ["piano"] note5 180).
    rewrite fallen_world by (reflexivity || lia). now rewrite inZone_oneCircle.
  - apply (X19_no_exception_with_loaded_samplers ["piano"]
             (NoteEmit note5 :: repeat (MoveTick 0) 180) (KeyDown "KeyH")).
    intros n Hin. apply in_app_iff in Hin as [[H | H] | [H | []]].
    + injection H as <-. reflexivity.
    + apply repeat_spec in H. discriminate.
    + discriminate.
Defined.

(** X20.  In a session in which the emitted notes the user plays have
    distinct ids, as the notes of a track have, no note is played as a hit
    more than once. *)
Theorem X20_a_note_is_hit_at_most_once samples trace i :
  NoDup (map id (emitted trace)) ->
  (hitsOf i (audio (run samples trace initialWorld)) <= 1)%nat.
Proof.
  intros Hnd.
  destruct (run_hitsOnce samples trace initialWorld Hnd) as (_ & _ & H); [|apply H].
  unfold hitsOnce. simpl. split_and!.
  - intros i' _. split; [apply lookup_empty | reflexivity].
  - intros i' c H. now rewrite lookup_empty in H.
  - intros i'. unfold hitsOf. simpl. lia.
Qed.

(** X20 (witness).  The key of the note of Scenario A is pressed twice
    when its circle is in the middle of the target zone: one hit. *)
Lemma X20_one_note_and_two_presses :
  let trace := NoteEmit note5 :: repeat (MoveTick 0) 180
               ++ [KeyDown "KeyH"; KeyDown "KeyH"] in
  hitsOf 0 (audio (run ["piano"] trace initialWorld)) = 1%nat /\
  (hitsOf 0 (audio (run ["piano"] trace initialWorld)) <= 1)%nat.
Proof.
  cbv zeta. split.
  - rewrite (hit_then_press_again ["piano"] "KeyH" KeyH note5 180 eq_refl eq_refl
               (laneOf_id_0 note5 eq_refl) eq_refl ltac:(lia)).
    reflexivity.
  - apply (X20_a_note_is_hit_at_most_once ["piano"]
             (NoteEmit note5 :: repeat (MoveTick 0) 180
              ++ [KeyDown "KeyH"; KeyDown "KeyH"]) 0).
    assert (E : emitted (NoteEmit note5 :: repeat (MoveTick 0) 180
                         ++ [KeyDown "KeyH"; KeyDown "KeyH"]) = [note5]).
    { change (NoteEmit note5 :: ?a ++ ?b) with ((NoteEmit note5 :: a) ++ b).
      rewrite emitted_app. change (emitted [KeyDown "KeyH"; KeyDown "KeyH"]) with (@nil Note).
      rewrite app_nil_r. change (emitted (NoteEmit note5 :: ?a)) with (note5 :: emitted a).
      f_equal; reflexivity. }
    rewrite E. change (NoDup [0]).
    apply NoDup_cons_2; [rewrite list_elem_of_In; simpl; tauto | apply NoDup_nil_2].
Defined.

(** X21.  A note the user plays whose sampler is loaded is played as a
    miss once the interval of its circle has emitted 200 times, whatever
    keys are pressed and whatever other events arrive before or in
    between: no press prevents the miss. *)
Theorem X21_no_press_prevents_the_miss samples pre note post :
  user_played note = true -> loaded samples (instrument note) = true ->
  (200 <= ticksOf (length (emitted pre)) post)%nat ->
  In (missPlayback note)
     (audio (run samples (pre ++ NoteEmit note :: post) initialWorld)).
Proof.
  intros Hu Hl Ht. rewrite run_app. simpl run.
  set (w := run samples pre initialWorld).
  assert (Hlen : length (circles w) = length (emitted pre)).
  { pose proof (circles_run samples pre initialWorld) as H. simpl in H.
    now rewrite <- H, length_map. }
  change (missPlayback note) with (missPlayback (circle_note (newCircle note))).
  apply (miss_after_ticks samples post _ (length (emitted pre)) (newCircle note) 200).
  - simpl step. rewrite noteEmit_world, Hu. cbn [circles].
    now rewrite <- Hlen, lookup_app_r, Nat.sub_diag.
  - reflexivity.
  - reflexivity.
  - lia.
  - exact Hl.
  - exact Ht.
Qed.

Lemma X21_miss_after_a_hit_and_other_events :
  In (missPlayback note5)
     (audio (run ["piano"]
               ([GameTick] ++ NoteEmit note5 ::
                repeat (MoveTick 0) 180 ++ [KeyDown "KeyH"; GameTick]
                ++ repeat (MoveTick 0) 20)
               initialWorld)).
Proof.
  apply (X21_no_press_prevents_the_miss ["piano"] [GameTick] note5); [reflexivity..|].
  vm_compute. lia.
Defined.


(** X22.  A press stops at the first note of the lane that is in the zone
    and whose sampler is not loaded: the notes before it have been
    resolved, the note itself and the notes after it are left as they are,
    and the subscriber throws a TypeError. *)
Theorem X22_press_stops_at_a_missing_sampler samples code key w l1 n l2 :
  keyOfCode code = Some key ->
  lane key (activeNotes w) = l1 ++ n :: l2 ->
  fst (forEach (handleKeyPress samples key) l1 w) = Normal tt ->
  inZone (snd (forEach (handleKeyPress samples key) l1 w)) n = true ->
  loaded samples (instrument n) = false ->
  step samples (KeyDown code) w
  = (Throw TypeError, snd (forEach (handleKeyPress samples key) l1 w)).
Proof.
  intros Hkey Hlane H1 Hz Hl. simpl. unfold keyDown. rewrite Hkey, Hlane.
  now apply forEach_press_stops.
Qed.

Lemma X22_second_note_without_sampler :
  let w := mkWorld [mkCircle kazoo0 360 true 360 false;
                    mkCircle piano2 360 true 360 false]
                   (<[2 := 1%nat]> {[ 0 := 0%nat ]})
                   (mkLanes [kazoo0; piano2] [] [] []) initialState None [] in
  step ["kazoo"] (KeyDown "KeyH") w
  = (Throw TypeError, snd (forEach (handleKeyPress ["kazoo"] KeyH) [kazoo0] w)).
Proof.
  intros w.
  apply (X22_press_stops_at_a_missing_sampler ["kazoo"] "KeyH" KeyH w
           [kazoo0] piano2 []); reflexivity.
Defined.

(** X23.  In any session the notes played automatically are the emitted
    notes the user does not play whose sampler is loaded, in the order of
    emission, each with the duration of the note itself. *)
Theorem X23_other_notes_are_played_on_emission samples trace :
  List.filter isAuto (audio (run samples trace initialWorld))
  = map (playbackFor Auto)
        (List.filter (fun n => negb (user_played n) && loaded samples (instrument n))
                     (scheduled trace)).
Proof.
  pose proof (run_autos samples trace initialWorld) as H.
  simpl in H. exact H.
Qed.

(** X24.  In any session the duration of every playback follows from its
    note and its call site: the fallback duration, unless it is 0 or NaN,
    for a miss, and [endTime - startTime] for a hit, for a note played
    automatically, and for a miss whose fallback duration is 0 or NaN. *)
Theorem X24_durations_of_the_playbacks samples trace :
  Forall (fun p => p = playbackFor (cause p) (played p))
         (audio (run samples trace initialWorld)).
Proof.
  apply (run_invariant samples
           (fun w => Forall (fun p => p = playbackFor (cause p) (played p)) (audio w))).
  - intros e w. apply step_playbacks.
  - constructor.
Qed.
